(** * gaphor.codegen.profile_coder: ordered emission of a profile's classes

    A shallow embedding of [src/gaphor/codegen/profile_coder.py] and the
    properties of its dependency resolution and emission order.

    Conventions of the embedding.
    - A Python [str] is a [string]; [str.lower] is modelled on the ASCII
      letters (the type names the generator compares with are ASCII).
    - A [UML.Class] element is an object: it is modelled by its identity
      ([Class], a number) and the element factory gives its fields.
    - A [dict] is a list of items in insertion order, since the generator
      iterates over [trees.items()]; a [set] is a [gset].
    - The open output file, the set [cls_written] and the list
      [classes_deferred] are the mutable objects of [generate]; they form the
      state of a small state-and-exception monad.
    - The [while queue] loop of the search runs on fuel; the fuel
      [breadth_first_search] gives it is shown to be enough. *)

From Stdlib Require Import Ascii String.
From stdpp Require Import base option list gmap strings.

Open Scope string_scope.
Open Scope list_scope.

Set Warnings "-clear-no-such-hyp".

(** ** Python strings *)

Module Str.

(** [c.lower()] on one ASCII character. *)
Definition lower_ascii (c : ascii) : ascii :=
  let n := nat_of_ascii c in
  if (65 <=? n)%nat && (n <=? 90)%nat then ascii_of_nat (n + 32) else c.

(** [s.lower()]. *)
Fixpoint lower (s : string) : string :=
  match s with
  | EmptyString => EmptyString
  | String c s' => String (lower_ascii c) (lower s')
  end.

(** [s.endswith(suffix)]: some tail of [s] is [suffix]. *)
Fixpoint endswith (s suffix : string) : bool :=
  String.eqb s suffix ||
  match s with
  | EmptyString => false
  | String _ s' => endswith s' suffix
  end.

(** [x in (a, b, ...)] for a tuple of strings. *)
Definition in_tuple (x : string) (t : list string) : bool :=
  existsb (String.eqb x) t.

(** [sep.join(l)]. *)
Fixpoint join (sep : string) (l : list string) : string :=
  match l with
  | [] => ""
  | [x] => x
  | x :: l' => String.append x (String.append sep (join sep l'))
  end.

(** What an f-string prints for a value that is a [str] or [None]. *)
Definition fmt (v : option string) : string :=
  match v with
  | Some s => s
  | None => "None"
  end.

End Str.

(** ** The model elements the generator reads *)

(** The identity of a [UML.Class] element. *)
Definition Class := positive.

(** The UML metamodel is not part of these sources: the elements are
    given by the fields the generator reads. Through an association it
    follows one path only, [a.association.ownedEnd.class_], so an
    association is given by the class that path reaches. *)
Module Association.
Record t := { ownedEnd_class_ : Class }.
End Association.

(** An owned attribute ([UML.Property]). *)
Module Property.
Record t := {
  name : option string;
  typeValue : option string;
  association : option Association.t
}.
End Property.

(** The loaded model: what [element_factory.lselect] returns for
    [UML.Class], and the fields of each class. [ownedOperation] holds the
    text [str(o)] of each operation, which is all the generator uses. *)
Record ElementFactory := {
  lselect_Class : list Class;
  name : Class → option string;
  general : Class → list Class;
  attribute : Class → list Property.t;
  ownedOperation : Class → list string
}.

(** ** type_converter *)

Definition type_converter (association : Property.t) : option string :=
  match Property.typeValue association with
  | None => None
  | Some type_value =>
      if String.eqb (Str.lower type_value) "boolean" then Some "int"
      else if Str.in_tuple (Str.lower type_value) ["integer"; "unlimitednatural"]
      then Some "int"
      else if String.eqb (Str.lower type_value) "string" then Some "str"
      else if Str.endswith type_value "Kind" || Str.endswith type_value "Sort"
      then None
      else Some type_value
  end.

(** An attribute that only carries a type name. *)
Definition typed (type_value : option string) : Property.t :=
  {| Property.name := None; Property.typeValue := type_value;
     Property.association := None |}.

(** The lower-cased names the converter maps to a primitive. *)
Definition primitive_name (s : string) : bool :=
  Str.in_tuple s ["boolean"; "integer"; "unlimitednatural"; "string"].

(** ** Python dictionaries, in insertion order *)

Module Dict.
Section Dict.
Context {V : Type}.

Definition t := list (Class * V).

(** [d[k] = v]: an existing key keeps its place, a new one goes last. *)
Fixpoint setitem (k : Class) (v : V) (d : t) : t :=
  match d with
  | [] => [(k, v)]
  | (k', v') :: d' =>
      if decide (k' = k) then (k, v) :: d' else (k', v') :: setitem k v d'
  end.

(** [d[k]], [None] standing for [KeyError]. *)
Fixpoint getitem (k : Class) (d : t) : option V :=
  match d with
  | [] => None
  | (k', v') :: d' => if decide (k' = k) then Some v' else getitem k d'
  end.

Definition keys (d : t) : list Class := d.*1.
End Dict.
Arguments t : clear implicits.
End Dict.

(** ** Building the class graph *)

Section Graph.
Variable m : ElementFactory.

(** [cls.attribute["it.association"]] and its complement. *)
Definition with_association (cls : Class) : list Property.t :=
  filter (λ a, is_Some (Property.association a)) (attribute m cls).

Definition without_association (cls : Class) : list Property.t :=
  filter (λ a, Property.association a = None) (attribute m cls).

Definition get_class_extensions (cls : Class) : list Class :=
  omap (λ a,
          if decide (Property.name a = Some "baseClass")
          then Association.ownedEnd_class_ <$> Property.association a
          else None)
       (with_association cls).

Definition create_class_trees (classes : list Class) : Dict.t (list Class) :=
  foldl (λ trees cls,
           let base_classes := general m cls in
           let meta_classes := get_class_extensions cls in
           Dict.setitem cls (base_classes ++ meta_classes) trees)
        [] classes.

(** The combined parent list of a class: the value [create_class_trees]
    stores for it. *)
Definition parent_list (cls : Class) : list Class :=
  general m cls ++ get_class_extensions cls.

(** The extension targets in the words of the specification: for every
    owned attribute that has an association and is named [baseClass], the
    class at the other end. *)
Definition extension_targets (cls : Class) : list Class :=
  flat_map (λ a, match Property.association a with
                 | Some assoc =>
                     if decide (Property.name a = Some "baseClass")
                     then [Association.ownedEnd_class_ assoc] else []
                 | None => []
                 end)
           (attribute m cls).

Definition create_referenced (classes : list Class) : gset Class :=
  foldl (λ referenced cls,
           let referenced := foldl (λ r gen, {[gen]} ∪ r) referenced (general m cls) in
           foldl (λ r meta_cls, {[meta_cls]} ∪ r) referenced (get_class_extensions cls))
        ∅ classes.
End Graph.

Definition find_root_nodes (trees : Dict.t (list Class)) (referenced : gset Class)
  : list Class :=
  (filter (λ kv, kv.2 = [] ∧ kv.1 ∈ referenced) trees).*1.

(** ** Breadth-first search *)

(** The keys appended to [neighbors] for one explored node. *)
Definition neighbors_of (trees : Dict.t (list Class)) (node : Class) : list Class :=
  (filter (λ kv, node ∈ kv.2) trees).*1.

(** The [while queue] loop; [fuel] bounds the number of iterations and
    [None] means the bound was reached with the queue not yet empty. *)
Fixpoint bfs_loop (fuel : nat) (trees : Dict.t (list Class))
    (explored queue : list Class) : option (list Class) :=
  match queue with
  | [] => Some explored
  | node :: queue =>
      match fuel with
      | O => None
      | S fuel =>
          if decide (node ∈ explored) then bfs_loop fuel trees explored queue
          else bfs_loop fuel trees (explored ++ [node]) (queue ++ neighbors_of trees node)
      end
  end.

(** Progress measure of the loop: each iteration either explores a node
    not explored before, or shortens the queue. *)
Definition unexplored (trees : Dict.t (list Class)) (explored queue : list Class) : nat :=
  length (filter (λ x, x ∉ explored) (remove_dups (queue ++ Dict.keys trees))).

Definition bfs_measure (trees : Dict.t (list Class)) (explored queue : list Class) : nat :=
  unexplored trees explored queue * S (length trees) + length queue.

Definition breadth_first_search (trees : Dict.t (list Class)) (root_nodes : list Class)
  : option (list Class) :=
  bfs_loop (bfs_measure trees [] root_nodes) trees [] root_nodes.

(** ** The output file *)

(** One constructor per [f.write] call of the module. A class signature
    remembers the element it was written for; [render] gives the text. *)
Inductive line :=
| Header
| Import (cls_name : option string)
| Signature (cls : Class) (cls_name : option string) (base_classes : list string)
| Attribute (a_name : option string) (type_value : option string)
| Relation (a_name : option string) (type_value : option string)
| Operation (o : string)
| Pass.

Definition nl : string := String (ascii_of_nat 10) "".

Definition header : string :=
  String.concat nl
    [ "# This file is generated by profile_coder.py. DO NOT EDIT!"; "";
      "from __future__ import annotations"; "";
      "import uuid";
      "from typing import TYPE_CHECKING, Callable, List, Optional"; "";
      "from gaphor.core.modeling.collection import collection";
      "from gaphor.core.modeling.element import Element";
      "from gaphor.core.modeling.properties import (";
      "    association,"; "    attribute,"; "    derived,"; "    derivedunion,";
      "    enumeration,"; "    redefine,"; "    relation_many,"; "    relation_one,";
      ")"; "" ].

Definition render (l : line) : string :=
  match l with
  | Header => header
  | Import cls_name =>
      String.concat "" ["from gaphor.UML import "; Str.fmt cls_name; nl; nl]
  | Signature _ cls_name [] =>
      String.concat "" ["class "; Str.fmt cls_name; ":"; nl]
  | Signature _ cls_name base_classes =>
      String.concat "" ["class "; Str.fmt cls_name; "("; Str.join ", " base_classes; "):"; nl]
  | Attribute a_name type_value =>
      String.concat "" ["    "; Str.fmt a_name; ": attribute["; Str.fmt type_value; "]"; nl]
  | Relation a_name type_value =>
      String.concat "" ["    "; Str.fmt a_name; ": relation_one["; Str.fmt type_value; "]"; nl]
  | Operation o =>
      String.concat "" ["    "; o; ": operation"; nl]
  | Pass =>
      String.concat "" ["    pass"; nl; nl]
  end.

(** The text of a file, given the writes made to it. *)
Definition text (f : list line) : string := String.concat "" (render <$> f).

(** ** The mutable objects of [generate] and the monad over them *)

Inductive exn := TypeError | IndexError | KeyError | OSError.

(** How a computation ends: it returns, raises, or (for the search only)
    stops at its iteration bound. *)
Inductive result (A : Type) :=
| Return (a : A)
| Raise (e : exn)
| Unfinished.
Arguments Return {A} a.
Arguments Raise {A} e.
Arguments Unfinished {A}.

Module Locals.
Record t := {
  f : list line;
  cls_written : gset (option string);
  classes_deferred : list Class
}.
Definition init : t := {| f := []; cls_written := ∅; classes_deferred := [] |}.
End Locals.

Definition M (A : Type) : Type := Locals.t → result A * Locals.t.

Global Instance M_ret : MRet M := λ A a st, (Return a, st).

Global Instance M_bind : MBind M := λ A B k c st,
  match c st with
  | (Return a, st') => k a st'
  | (Raise e, st') => (Raise e, st')
  | (Unfinished, st') => (Unfinished, st')
  end.

Definition raise {A} (e : exn) : M A := λ st, (Raise e, st).

Definition lift {A} (r : result A) : M A := λ st, (r, st).

(** [for x in l: body(x)]. *)
Fixpoint for_each {A} (l : list A) (body : A → M unit) : M unit :=
  match l with
  | [] => mret tt
  | x :: l => body x;; for_each l body
  end.

(** [f.write(...)]. *)
Definition write (l : line) : M unit :=
  λ st, (Return tt, {| Locals.f := Locals.f st ++ [l];
                       Locals.cls_written := Locals.cls_written st;
                       Locals.classes_deferred := Locals.classes_deferred st |}).

(** [cls_written.add(cls_name)]. *)
Definition cls_written_add (cls_name : option string) : M unit :=
  λ st, (Return tt, {| Locals.f := Locals.f st;
                       Locals.cls_written := {[cls_name]} ∪ Locals.cls_written st;
                       Locals.classes_deferred := Locals.classes_deferred st |}).

(** [classes_deferred.append(cls)]. *)
Definition classes_deferred_append (cls : Class) : M unit :=
  λ st, (Return tt, {| Locals.f := Locals.f st;
                       Locals.cls_written := Locals.cls_written st;
                       Locals.classes_deferred := Locals.classes_deferred st ++ [cls] |}).

Definition get_cls_written : M (gset (option string)) :=
  λ st, (Return (Locals.cls_written st), st).

Definition get_classes_deferred : M (list Class) :=
  λ st, (Return (Locals.classes_deferred st), st).

(** ** Emitting one class *)

Section Emitter.
Variable m : ElementFactory.

(** A value that is true in a condition: a non-empty string. *)
Definition truthy (v : option string) : bool :=
  match v with
  | Some (String _ _) => true
  | _ => false
  end.

Definition write_attributes (cls : Class) : M unit :=
  let attributes :=
    (λ a, Attribute (Property.name a) (type_converter a))
      <$> without_association m cls in
  let relations :=
    (λ a, Relation (Property.name a) (type_converter a))
      <$> filter (λ a, truthy (Property.name a) ∧ Property.name a ≠ Some "baseClass")
                 (with_association m cls) in
  let operations := Operation <$> ownedOperation m cls in
  for_each (attributes ++ relations ++ operations) write;;
  let written := bool_decide (attributes ++ relations ++ operations ≠ []) in
  if written then mret tt else write Pass.

(** [', '.join(base_classes)] needs every element to be a [str]. *)
Definition str_list (l : list (option string)) : result (list string) :=
  match mapM id l with
  | Some names => Return names
  | None => Raise TypeError
  end.

Definition write_class_signature (trees : Dict.t (list Class)) (cls : Class) : M bool :=
  match Dict.getitem cls trees with
  | None => raise KeyError
  | Some parents =>
      let base_classes := name m <$> parents in
      cls_written ← get_cls_written;
      if decide (base_classes ≠ []) then
        if decide (Forall (λ cls_name, cls_name ∈ cls_written) base_classes) then
          names ← lift (str_list base_classes);
          write (Signature cls (name m cls) names);;
          write_attributes cls;;
          mret true
        else mret false
      else
        write (Signature cls (name m cls) []);;
        write_attributes cls;;
        mret true
  end.
End Emitter.

(** ** generate *)

Section Generate.
(** [dir(UML.uml)]: the names the UML module defines. The module is not
    part of this development, so its directory is a parameter. *)
Variable uml_directory : list string.
Variable m : ElementFactory.

(** [cls.name[0]]: [None] is not subscriptable, [""] has no index 0. *)
Definition first_char (cls_name : option string) : result ascii :=
  match cls_name with
  | None => Raise TypeError
  | Some EmptyString => Raise IndexError
  | Some (String c _) => Return c
  end.

(** [[cls for cls in classes if cls.name[0] != "~"]], left to right. *)
Fixpoint drop_tilde (classes : list Class) : result (list Class) :=
  match classes with
  | [] => Return []
  | cls :: classes =>
      match first_char (name m cls) with
      | Return c =>
          match drop_tilde classes with
          | Return kept =>
              Return (if decide (c ≠ "~"%char) then cls :: kept else kept)
          | Raise e => Raise e
          | Unfinished => Unfinished
          end
      | Raise e => Raise e
      | Unfinished => Unfinished
      end
  end.

(** [cls.name in uml_directory]. *)
Definition in_uml_directory (cls : Class) : Prop :=
  match name m cls with
  | Some s => s ∈ uml_directory
  | None => False
  end.

Global Instance in_uml_directory_dec cls : Decision (in_uml_directory cls).
Proof. unfold in_uml_directory. destruct (name m cls); apply _. Defined.

(** Returns the classes that are part of UML; the list
    [filtered_classes] the function also computes is not used. *)
Definition filter_uml_classes (classes : list Class) : list Class :=
  filter in_uml_directory classes.

(** The first loop over [classes_found]. *)
Definition first_pass (trees : Dict.t (list Class)) (classes_found : list Class)
  : M unit :=
  for_each classes_found (λ cls,
    cls_written ← get_cls_written;
    if decide (name m cls ∉ cls_written) then
      written ← write_class_signature m trees cls;
      if written : bool then cls_written_add (name m cls)
      else classes_deferred_append cls
    else mret tt).

(** The second loop, over [classes_deferred]. *)
Definition second_pass (trees : Dict.t (list Class)) : M unit :=
  classes_deferred ← get_classes_deferred;
  for_each classes_deferred (λ cls,
    write_class_signature m trees cls;; mret tt).

(** The body of [with open(outfile, "w") as f]. *)
Definition generate_body : M unit :=
  write Header;;
  classes ← lift (drop_tilde (lselect_Class m));
  let trees := create_class_trees m classes in
  let referenced := create_referenced m classes in
  let root_nodes := find_root_nodes trees referenced in
  let uml_classes := filter_uml_classes classes in
  for_each uml_classes (λ cls,
    write (Import (name m cls));;
    cls_written_add (name m cls));;
  classes_found ← lift (match breadth_first_search trees root_nodes with
                        | Some explored => Return explored
                        | None => Unfinished
                        end);
  first_pass trees classes_found;;
  second_pass trees.
End Generate.

(** [generate(filename, outfile)]. [loaded] is what opening and loading
    [filename] gives: the model, or the exception raised. [outfile] is the
    text at the destination before the call, if the file exists; the second
    component of the result is the text there after the call. Opening the
    destination with mode [w] empties it, and is taken to succeed; what was
    written before an exception stays in the file when the [with] block is
    left. *)
Definition generate (uml_directory : list string) (loaded : exn + ElementFactory)
    (outfile : option string) : result unit * option string :=
  match loaded with
  | inl e => (Raise e, outfile)
  | inr m =>
      let '(r, st) := generate_body uml_directory m Locals.init in
      (r, Some (text (Locals.f st)))
  end.

(** ** Sample models *)

Definition no_attributes : Class → list Property.t := λ _, [].
Definition no_operations : Class → list string := λ _, [].

(** [baseClass] end of an extension of the meta class [meta_cls]. *)
Definition extension (meta_cls : Class) : Property.t :=
  {| Property.name := Some "baseClass"; Property.typeValue := None;
     Property.association := Some {| Association.ownedEnd_class_ := meta_cls |} |}.

(** The meta class [Element] of UML, a stereotype [Y] that extends it and
    has a [String] attribute [label], and [Z] below [Y]. *)
Definition chain_model : ElementFactory :=
  {| lselect_Class := [1; 2; 3]%positive;
     name := λ c, match c with
                  | 1 => Some "Element" | 2 => Some "Y" | _ => Some "Z"
                  end%positive;
     general := λ c, match c with 3 => [2] | _ => [] end%positive;
     attribute := λ c, match c with
                       | 2 => [ {| Property.name := Some "label";
                                   Property.typeValue := Some "String";
                                   Property.association := None |};
                                extension 1 ]
                       | _ => []
                       end%positive;
     ownedOperation := no_operations |}.

(** Two classes that generalize each other. *)
Definition cyclic_model : ElementFactory :=
  {| lselect_Class := [1; 2]%positive;
     name := λ c, if decide (c = 1%positive) then Some "A" else Some "B";
     general := λ c, if decide (c = 1%positive) then [2%positive] else [1%positive];
     attribute := no_attributes;
     ownedOperation := no_operations |}.

(** Roots [R1], [R2]; [Q] below [R2]; [P] below [R1] and [Q]; [D] below [P].
    The search finds [P] before [Q]. *)
Definition diamond_model : ElementFactory :=
  {| lselect_Class := [1; 2; 3; 4; 5]%positive;
     name := λ c, match c with
                  | 1 => Some "R1" | 2 => Some "R2" | 3 => Some "P"
                  | 4 => Some "Q" | _ => Some "D"
                  end%positive;
     general := λ c, match c with
                     | 3 => [1; 4] | 4 => [2] | 5 => [3] | _ => []
                     end%positive;
     attribute := no_attributes;
     ownedOperation := no_operations |}.

(** A class [~Hidden] that [Shown] generalizes, next to a root and its child. *)
Definition tilde_model : ElementFactory :=
  {| lselect_Class := [1; 2; 3; 4]%positive;
     name := λ c, match c with
                  | 1 => Some "~Hidden" | 2 => Some "Shown" | 3 => Some "Base"
                  | _ => Some "Derived"
                  end%positive;
     general := λ c, match c with
                     | 2 => [1] | 4 => [3] | _ => []
                     end%positive;
     attribute := no_attributes;
     ownedOperation := no_operations |}.


(** A class whose name is the empty string. *)
Definition unnamed_model : ElementFactory :=
  {| lselect_Class := [1]%positive;
     name := λ _, Some "";
     general := λ _, [];
     attribute := no_attributes;
     ownedOperation := no_operations |}.

(** A named class, then a class without a name, then one named [""]. *)
Definition nameless_model : ElementFactory :=
  {| lselect_Class := [1; 2; 3]%positive;
     name := λ c, match c with
                  | 1 => Some "A" | 2 => None | _ => Some ""
                  end%positive;
     general := λ _, [];
     attribute := no_attributes;
     ownedOperation := no_operations |}.

(** Two classes without any generalization or extension. *)
Definition flat_model : ElementFactory :=
  {| lselect_Class := [1; 2]%positive;
     name := λ c, if decide (c = 1%positive) then Some "A" else Some "B";
     general := λ _, [];
     attribute := no_attributes;
     ownedOperation := no_operations |}.

(** The state [generate] reaches on [diamond_model] when the first pass
    is over: [P] and [D] are deferred. *)
Definition diamond_after_first_pass : Locals.t :=
  {| Locals.f := [ Header;
                   Signature 1%positive (Some "R1") []; Pass;
                   Signature 2%positive (Some "R2") []; Pass;
                   Signature 4%positive (Some "Q") ["R2"]; Pass ];
     Locals.cls_written := {[ Some "R1"; Some "R2"; Some "Q" ]};
     Locals.classes_deferred := [3; 5]%positive |}.

Definition diamond_trees : Dict.t (list Class) :=
  create_class_trees diamond_model (lselect_Class diamond_model).

(** ** Vocabulary of the properties *)

(** The class name begins with the character [~]. *)
Definition begins_with_tilde (cls_name : option string) : bool :=
  match cls_name with
  | Some (String c _) => bool_decide (c = "~"%char)
  | _ => false
  end.



(** The line names the class name [n]: it imports it, defines it, or
    lists it as a base class. *)
Definition names_class (l : line) (n : option string) : Prop :=
  match l with
  | Import cls_name => cls_name = n
  | Signature _ cls_name base_classes => cls_name = n ∨ n ∈ Some <$> base_classes
  | _ => False
  end.

(** The value of the comprehension that drops the [~] classes, when no
    class name makes it raise. *)
Definition kept_classes (m : ElementFactory) : list Class :=
  filter (λ cls, begins_with_tilde (name m cls) = false) (lselect_Class m).

(** The lines written so far by [generate] for a loaded model. *)
Definition output (uml_directory : list string) (m : ElementFactory) : list line :=
  Locals.f (generate_body uml_directory m Locals.init).2.

(** A line that makes the name [s] available to later class signatures:
    the import of a UML class or the signature of a generated class. *)
Definition defines (l : line) (s : string) : Prop :=
  match l with
  | Import cls_name => cls_name = Some s
  | Signature _ cls_name _ => cls_name = Some s
  | _ => False
  end.

(** A line of a class body. *)
Definition body_line (l : line) : Prop :=
  match l with
  | Attribute _ _ | Relation _ _ | Operation _ | Pass => True
  | _ => False
  end.

(** The state after [lines] have been written to the file. *)
Definition written_to (st : Locals.t) (lines : list line) : Locals.t :=
  {| Locals.f := Locals.f st ++ lines;
     Locals.cls_written := Locals.cls_written st;
     Locals.classes_deferred := Locals.classes_deferred st |}.

(** The lines [write_attributes] writes for a class. *)
Definition class_body (m : ElementFactory) (cls : Class) : list line :=
  let lines :=
    ((λ a, Attribute (Property.name a) (type_converter a)) <$> without_association m cls)
    ++ ((λ a, Relation (Property.name a) (type_converter a))
          <$> filter (λ a, truthy (Property.name a) ∧ Property.name a ≠ Some "baseClass")
                     (with_association m cls))
    ++ (Operation <$> ownedOperation m cls) in
  if decide (lines = []) then [Pass] else lines.

(** The definition of a class: its signature, then its body. *)
Definition class_block (m : ElementFactory) (cls : Class) (parents : list Class)
  : list line :=
  Signature cls (name m cls) (omap (name m) parents) :: class_body m cls.

(** The parent check of [write_class_signature]: every parent name is in
    the written set. *)
Definition satisfied (m : ElementFactory) (written : gset (option string))
    (parents : list Class) : Prop :=
  Forall (λ cls_name, cls_name ∈ written) (name m <$> parents).

(** What one call of [write_class_signature] adds to the file. *)
Definition attempt (m : ElementFactory) (trees : Dict.t (list Class))
    (written : gset (option string)) (cls : Class) : list line :=
  match Dict.getitem cls trees with
  | Some parents =>
      if decide (satisfied m written parents) then class_block m cls parents else []
  | None => []
  end.

(** A computation that, from a state satisfying [P], returns a value and
    leaves a state satisfying [Q]; it neither raises nor stops unfinished. *)
Definition hoare {A} (P : Locals.t → Prop) (c : M A) (Q : A → Locals.t → Prop) : Prop :=
  ∀ st, P st → ∃ a st', c st = (Return a, st') ∧ Q a st'.

(** Every class of the model has a name with a first character. *)
Definition well_named (m : ElementFactory) : Prop :=
  ∀ cls, cls ∈ lselect_Class m → truthy (name m cls) = true.

(** The parent relation of the model has no cycle: the classes can be
    ranked so that every parent ranks below its child. *)
Definition acyclic (m : ElementFactory) : Prop :=
  ∃ rank : Class → nat,
    ∀ cls parent, cls ∈ lselect_Class m → parent ∈ parent_list m cls →
                  (rank parent < rank cls)%nat.

(** Every class signature in the file comes after lines that define each
    of the base classes it names. *)
Definition ordered (f : list line) : Prop :=
  ∀ pre cls cls_name base_classes post,
    f = pre ++ Signature cls cls_name base_classes :: post →
    ∀ b, b ∈ base_classes → ∃ l, l ∈ pre ∧ defines l b.

(** What holds of the mutable objects of [generate] from the first write
    on, for the kept classes [classes] and the search result [found]. *)
Definition emitter_inv (m : ElementFactory) (classes found : list Class)
    (st : Locals.t) : Prop :=
  (∀ n, n ∈ Locals.cls_written st →
        ∃ cls s, cls ∈ classes ∧ name m cls = Some s ∧ n = Some s
                 ∧ ∃ l, l ∈ Locals.f st ∧ defines l s) ∧
  ordered (Locals.f st) ∧
  (∀ cls cls_name base_classes,
     Signature cls cls_name base_classes ∈ Locals.f st →
     cls ∈ found ∧ cls_name = name m cls
     ∧ Some <$> base_classes = name m <$> parent_list m cls
     ∧ ∀ b, b ∈ base_classes → ∃ cls', cls' ∈ classes ∧ name m cls' = Some b) ∧
  (∀ cls_name, Import cls_name ∈ Locals.f st →
               ∃ cls, cls ∈ classes ∧ name m cls = cls_name) ∧
  (∀ cls, cls ∈ Locals.classes_deferred st → cls ∈ found).

(** The definition written for a key of the tree. *)
Definition block (m : ElementFactory) (trees : Dict.t (list Class)) (cls : Class)
  : list line :=
  match Dict.getitem cls trees with
  | Some parents => class_block m cls parents
  | None => []
  end.

(** The first loop in summary, from the written set it starts with: the
    classes it writes, the written set it ends with, the classes it defers. *)
Fixpoint first_pass_result (m : ElementFactory) (trees : Dict.t (list Class))
    (written : gset (option string)) (classes_found : list Class)
  : list Class * gset (option string) * list Class :=
  match classes_found with
  | [] => ([], written, [])
  | cls :: classes_found =>
      if decide (name m cls ∈ written)
      then first_pass_result m trees written classes_found
      else
        match attempt m trees written cls with
        | [] =>
            let '(emitted, written, deferred) :=
              first_pass_result m trees written classes_found in
            (emitted, written, cls :: deferred)
        | _ :: _ =>
            let '(emitted, written, deferred) :=
              first_pass_result m trees ({[name m cls]} ∪ written) classes_found in
            (cls :: emitted, written, deferred)
        end
  end.

(** * Properties *)

(** ** The attribute type mapper *)

Lemma primitive_name_cases s :
  primitive_name s = true →
  String.eqb s "boolean" = true ∨
  Str.in_tuple s ["integer"; "unlimitednatural"] = true ∨
  String.eqb s "string" = true.
Proof.
  unfold primitive_name, Str.in_tuple. simpl.
  destruct (String.eqb s "boolean"), (String.eqb s "integer"),
    (String.eqb s "unlimitednatural"), (String.eqb s "string"); simpl; auto.
Qed.

Lemma not_primitive_name s :
  primitive_name s = false →
  String.eqb s "boolean" = false ∧
  Str.in_tuple s ["integer"; "unlimitednatural"] = false ∧
  String.eqb s "string" = false.
Proof.
  unfold primitive_name, Str.in_tuple. simpl.
  destruct (String.eqb s "boolean"), (String.eqb s "integer"),
    (String.eqb s "unlimitednatural"), (String.eqb s "string"); simpl; auto;
    discriminate.
Qed.

(** C6, as stated, fails: two spellings of one name that differ only in
    letter case are not always converted alike. [MoodKind] has the
    enumeration suffix and gives no type; [moodkind] is passed through. *)
Lemma type_converter_not_case_insensitive :
  ¬ (∀ s t : string,
       Str.lower s = Str.lower t →
       type_converter (typed (Some s)) = type_converter (typed (Some t))).
Proof.
  intros H. specialize (H "MoodKind" "moodkind" eq_refl).
  vm_compute in H. discriminate H.
Qed.

(** For the primitive names letter case is ignored: when the lower-cased
    name is [boolean], [integer], [unlimitednatural] or [string], every
    spelling that lower-cases to it is converted to the same token. *)
Lemma type_converter_primitive_any_case (a b : Property.t) (s t : string) :
  Property.typeValue a = Some s →
  Property.typeValue b = Some t →
  Str.lower s = Str.lower t →
  primitive_name (Str.lower s) = true →
  type_converter a = type_converter b.
Proof.
  intros Ha Hb Hst Hprim. unfold type_converter.
  rewrite Ha, Hb, <- Hst.
  destruct (primitive_name_cases _ Hprim) as [H | [H | H]].
  - now rewrite H.
  - rewrite H. now destruct (String.eqb (Str.lower s) "boolean").
  - rewrite H.
    now destruct (String.eqb (Str.lower s) "boolean"),
      (Str.in_tuple (Str.lower s) ["integer"; "unlimitednatural"]).
Qed.

(** A name that is no primitive name in any letter case is judged on its
    own spelling: no type if it ends in [Kind] or [Sort] as written, the
    name itself otherwise. *)
Lemma type_converter_not_primitive (a : Property.t) (s : string) :
  Property.typeValue a = Some s →
  primitive_name (Str.lower s) = false →
  type_converter a
  = if Str.endswith s "Kind" || Str.endswith s "Sort" then None else Some s.
Proof.
  intros Ha Hprim. unfold type_converter. rewrite Ha.
  by destruct (not_primitive_name _ Hprim) as (-> & -> & ->).
Qed.

(** C6, amended: the converter ignores letter case for the primitive
    names only. Of two spellings that differ in letter case alone: when
    they lower-case to [boolean], [integer], [unlimitednatural] or [string],
    both are converted to the same token; otherwise each is judged as it is
    written: it gives no type exactly when it ends in [Kind] or [Sort] in
    that very letter case, and else it is returned with its own letter case. *)
Theorem type_converter_letter_case (a b : Property.t) (s t : string) :
  Property.typeValue a = Some s →
  Property.typeValue b = Some t →
  Str.lower s = Str.lower t →
  (primitive_name (Str.lower s) = true → type_converter a = type_converter b) ∧
  (primitive_name (Str.lower s) = false →
   type_converter a
   = (if Str.endswith s "Kind" || Str.endswith s "Sort" then None else Some s) ∧
   type_converter b
   = (if Str.endswith t "Kind" || Str.endswith t "Sort" then None else Some t)).
Proof.
  intros Ha Hb Hst. split.
  - by apply (type_converter_primitive_any_case a b s t).
  - intros Hprim. split.
    + by apply type_converter_not_primitive.
    + apply type_converter_not_primitive; [done|]. by rewrite <- Hst.
Qed.

Lemma type_converter_letter_case_witness :
  type_converter (typed (Some "BOOLEAN")) = type_converter (typed (Some "Boolean")) ∧
  type_converter (typed (Some "MoodKind")) = None ∧
  type_converter (typed (Some "moodkind")) = Some "moodkind" ∧
  type_converter (typed (Some "Block")) = Some "Block" ∧
  type_converter (typed (Some "BLOCK")) = Some "BLOCK".
Proof.
  destruct (type_converter_letter_case (typed (Some "BOOLEAN")) (typed (Some "Boolean"))
              "BOOLEAN" "Boolean" eq_refl eq_refl eq_refl) as [Hprim _].
  destruct (type_converter_letter_case (typed (Some "MoodKind")) (typed (Some "moodkind"))
              "MoodKind" "moodkind" eq_refl eq_refl eq_refl) as [_ Hmarker].
  destruct (type_converter_letter_case (typed (Some "Block")) (typed (Some "BLOCK"))
              "Block" "BLOCK" eq_refl eq_refl eq_refl) as [_ Hother].
  destruct (Hmarker eq_refl) as [Hkind Hkind'].
  destruct (Hother eq_refl) as [Hblock Hblock'].
  split; [exact (Hprim eq_refl)|]. split; [exact Hkind|]. split; [exact Hkind'|].
  split; [exact Hblock | exact Hblock'].
Defined.

(** C7: the conversion table. [String] gives [str]; [Boolean], [Integer]
    and [UnlimitedNatural] give [int]; [MoodKind] and an absent type name
    give no type; a name that none of these rules takes (not a primitive
    name in any letter case, no [Kind] or [Sort] suffix) is returned as it
    is. *)
Theorem type_converter_table :
  type_converter (typed (Some "String")) = Some "str" ∧
  type_converter (typed (Some "Boolean")) = Some "int" ∧
  type_converter (typed (Some "Integer")) = Some "int" ∧
  type_converter (typed (Some "UnlimitedNatural")) = Some "int" ∧
  type_converter (typed (Some "MoodKind")) = None ∧
  (∀ a, Property.typeValue a = None → type_converter a = None) ∧
  (∀ a s, Property.typeValue a = Some s →
          primitive_name (Str.lower s) = false →
          Str.endswith s "Kind" = false →
          Str.endswith s "Sort" = false →
          type_converter a = Some s).
Proof.
  repeat split; try reflexivity.
  - intros a Ha. unfold type_converter. now rewrite Ha.
  - intros a s Ha Hprim Hkind Hsort. unfold type_converter. rewrite Ha.
    destruct (not_primitive_name _ Hprim) as (-> & -> & ->).
    now rewrite Hkind, Hsort.
Qed.

Lemma type_converter_table_witness :
  type_converter (typed (Some "Block")) = Some "Block".
Proof.
  apply type_converter_table; reflexivity.
Defined.

(** ** The breadth-first search *)

Section Search.
Variable trees : Dict.t (list Class).

Lemma neighbors_of_keys node x :
  x ∈ neighbors_of trees node → x ∈ Dict.keys trees.
Proof.
  unfold neighbors_of, Dict.keys. rewrite !list_elem_of_fmap.
  intros (kv & -> & Hkv). apply list_elem_of_filter in Hkv as [_ Hkv]. eauto.
Qed.

Lemma neighbors_of_parent node x :
  x ∈ neighbors_of trees node → ∃ parents, (x, parents) ∈ trees ∧ node ∈ parents.
Proof.
  unfold neighbors_of. rewrite list_elem_of_fmap.
  intros ([k v] & -> & Hkv). apply list_elem_of_filter in Hkv as [Hn Hkv]. eauto.
Qed.

Lemma neighbors_of_length node :
  (length (neighbors_of trees node) ≤ length trees)%nat.
Proof. unfold neighbors_of. rewrite length_fmap. apply length_filter. Qed.

(** Dropping an explored node from the queue leaves the count alone. *)
Lemma unexplored_skip explored node queue :
  node ∈ explored →
  (unexplored trees explored queue ≤ unexplored trees explored (node :: queue))%nat.
Proof.
  intros Hin. unfold unexplored. apply submseteq_length, NoDup_submseteq.
  - apply NoDup_filter, NoDup_remove_dups.
  - intros x. rewrite !list_elem_of_filter, !elem_of_remove_dups. set_solver.
Qed.

(** Exploring a node makes the count drop. *)
Lemma unexplored_visit explored node queue :
  node ∉ explored →
  (unexplored trees (explored ++ [node]) (queue ++ neighbors_of trees node)
   < unexplored trees explored (node :: queue))%nat.
Proof.
  intros Hnin. unfold unexplored.
  set (A := filter _ (remove_dups ((queue ++ _) ++ _))).
  set (B := filter _ (remove_dups _)).
  assert (NoDup A) as HA by apply NoDup_filter, NoDup_remove_dups.
  assert (node ∉ A) as HnA.
  { unfold A. rewrite list_elem_of_filter. set_solver. }
  change (length (node :: A) ≤ length B)%nat.
  apply submseteq_length, NoDup_submseteq; [by constructor|].
  intros x. unfold A, B.
  rewrite elem_of_cons, !list_elem_of_filter, !elem_of_remove_dups, !elem_of_app.
  intros [-> | [Hx Hin]]; [set_solver|]. split; [set_solver|].
  destruct Hin as [[Hin | Hin] | Hin]; [set_solver | | set_solver].
  apply neighbors_of_keys in Hin. set_solver.
Qed.

(** The loop ends within the bound its measure gives. *)
Lemma bfs_loop_terminates fuel explored queue :
  (bfs_measure trees explored queue ≤ fuel)%nat →
  is_Some (bfs_loop fuel trees explored queue).
Proof.
  revert explored queue. induction fuel as [|fuel IH]; intros explored queue Hfuel.
  - destruct queue as [|node queue]; simpl; [eauto|].
    unfold bfs_measure in Hfuel. simpl in Hfuel. lia.
  - destruct queue as [|node queue]; simpl; [eauto|]. case_decide as Hin.
    + apply IH. pose proof (unexplored_skip explored node queue Hin) as Hle.
      unfold bfs_measure in *. simpl in Hfuel.
      assert (unexplored trees explored queue * S (length trees)
              ≤ unexplored trees explored (node :: queue) * S (length trees))%nat
        by (apply Nat.mul_le_mono_r; lia).
      lia.
    + apply IH. pose proof (unexplored_visit explored node queue Hin) as Hlt.
      pose proof (neighbors_of_length node) as Hnb.
      unfold bfs_measure in *. simpl in Hfuel. rewrite length_app.
      assert (S (unexplored trees (explored ++ [node]) (queue ++ neighbors_of trees node))
                * S (length trees)
              ≤ unexplored trees explored (node :: queue) * S (length trees))%nat
        by (apply Nat.mul_le_mono_r; lia).
      lia.
Qed.

Lemma breadth_first_search_no_root : breadth_first_search trees [] = Some [].
Proof. unfold breadth_first_search. by destruct (bfs_measure trees [] []). Qed.

(** [breadth_first_search] always returns. *)
Lemma breadth_first_search_total root_nodes :
  is_Some (breadth_first_search trees root_nodes).
Proof. apply bfs_loop_terminates. lia. Qed.

(** What the loop can put into [explored]: what was there, what was
    queued, or a key whose parent list holds an explored node. *)
Lemma bfs_loop_elem fuel explored queue found x :
  bfs_loop fuel trees explored queue = Some found →
  x ∈ found →
  x ∈ explored ∨ x ∈ queue ∨ ∃ node, x ∈ neighbors_of trees node.
Proof.
  revert explored queue. induction fuel as [|fuel IH]; intros explored queue Hrun Hx.
  - destruct queue; simpl in Hrun; [|done]. injection Hrun as <-. auto.
  - destruct queue as [|node queue]; simpl in Hrun.
    { injection Hrun as <-. auto. }
    case_decide.
    + destruct (IH _ _ Hrun Hx) as [? | [? | ?]]; set_solver.
    + destruct (IH _ _ Hrun Hx) as [Hin | [Hin | ?]]; [set_solver | | auto].
      apply elem_of_app in Hin as [? | ?]; [set_solver | eauto].
Qed.

Lemma breadth_first_search_elem root_nodes found x :
  breadth_first_search trees root_nodes = Some found →
  x ∈ found →
  x ∈ root_nodes ∨ ∃ parents, (x, parents) ∈ trees ∧ parents ≠ [].
Proof.
  intros Hrun Hx.
  destruct (bfs_loop_elem _ _ _ _ _ Hrun Hx) as [Hin | [Hin | [node Hin]]].
  - set_solver.
  - auto.
  - right. apply neighbors_of_parent in Hin as (parents & ? & ?).
    exists parents. split; [done|]. intros ->. set_solver.
Qed.

Lemma find_root_nodes_elem referenced x :
  x ∈ find_root_nodes trees referenced ↔ (x, []) ∈ trees ∧ x ∈ referenced.
Proof.
  unfold find_root_nodes. rewrite list_elem_of_fmap. split.
  - intros ([k v] & -> & Hkv). apply list_elem_of_filter in Hkv as [[Hv Hr] Hkv].
    simpl in *. by subst.
  - intros [Hin Hr]. exists (x, []). rewrite list_elem_of_filter. auto.
Qed.

(** Every class the search finds from the root nodes is a key of the tree. *)
Lemma breadth_first_search_keys referenced found x :
  breadth_first_search trees (find_root_nodes trees referenced) = Some found →
  x ∈ found → x ∈ Dict.keys trees.
Proof.
  intros Hrun Hx. unfold Dict.keys. rewrite list_elem_of_fmap.
  destruct (breadth_first_search_elem _ _ _ Hrun Hx) as [Hin | (parents & Hin & _)].
  - apply find_root_nodes_elem in Hin as [Hin _]. by exists (x, []).
  - by exists (x, parents).
Qed.
End Search.

(** ** Dictionaries *)

Section DictFacts.
Context {V : Type}.
Implicit Types (d : Dict.t V) (k : Class) (v : V).

Lemma getitem_setitem_eq k v d : Dict.getitem k (Dict.setitem k v d) = Some v.
Proof.
  induction d as [|[k' v'] d IH]; simpl.
  - by rewrite decide_True.
  - case_decide; simpl; [by rewrite decide_True | by rewrite decide_False].
Qed.

Lemma getitem_setitem_ne k k' v d :
  k ≠ k' → Dict.getitem k' (Dict.setitem k v d) = Dict.getitem k' d.
Proof.
  intros Hne. induction d as [|[k0 v0] d IH]; simpl.
  - by rewrite decide_False.
  - case_decide; simpl; subst.
    + by rewrite !decide_False.
    + by rewrite IH.
Qed.

Lemma keys_setitem_old k v d :
  k ∈ Dict.keys d → Dict.keys (Dict.setitem k v d) = Dict.keys d.
Proof.
  unfold Dict.keys. induction d as [|[k' v'] d IH]; simpl; [set_solver|].
  intros Hin. case_decide; simpl; subst; [done|].
  f_equal. apply IH. set_solver.
Qed.

Lemma keys_setitem_new k v d :
  k ∉ Dict.keys d → Dict.keys (Dict.setitem k v d) = Dict.keys d ++ [k].
Proof.
  unfold Dict.keys. induction d as [|[k' v'] d IH]; simpl; [done|].
  intros Hnin. case_decide; simpl; subst; [set_solver|].
  f_equal. apply IH. set_solver.
Qed.

Lemma keys_setitem_elem k k' v d :
  k' ∈ Dict.keys (Dict.setitem k v d) ↔ k' = k ∨ k' ∈ Dict.keys d.
Proof.
  destruct (decide (k ∈ Dict.keys d)).
  - rewrite keys_setitem_old by done. set_solver.
  - rewrite keys_setitem_new by done. set_solver.
Qed.

Lemma keys_setitem_NoDup k v d :
  NoDup (Dict.keys d) → NoDup (Dict.keys (Dict.setitem k v d)).
Proof.
  intros Hnd. destruct (decide (k ∈ Dict.keys d)).
  - by rewrite keys_setitem_old.
  - rewrite keys_setitem_new by done. apply NoDup_app. set_solver by eauto using NoDup_singleton.
Qed.

Lemma getitem_elem k v d : Dict.getitem k d = Some v → (k, v) ∈ d.
Proof.
  induction d as [|[k' v'] d IH]; simpl; [done|].
  case_decide; [intros [= ->]; subst; left | right; auto].
Qed.

Lemma elem_getitem k v d : NoDup (Dict.keys d) → (k, v) ∈ d → Dict.getitem k d = Some v.
Proof.
  unfold Dict.keys. induction d as [|[k' v'] d IH]; simpl; [set_solver|].
  rewrite NoDup_cons. intros [Hnin Hnd] Hin. apply elem_of_cons in Hin as [[= -> ->] | Hin].
  - by rewrite decide_True.
  - rewrite decide_False; [auto|]. intros ->. apply Hnin.
    apply list_elem_of_fmap. by exists (k, v).
Qed.

Lemma getitem_is_Some k d : k ∈ Dict.keys d → is_Some (Dict.getitem k d).
Proof.
  unfold Dict.keys. induction d as [|[k' v'] d IH]; simpl; [set_solver|].
  intros Hin. case_decide; [eauto|]. apply IH. set_solver.
Qed.
End DictFacts.

(** ** The class graph *)

Section GraphFacts.
Variable m : ElementFactory.

Lemma get_class_extensions_targets cls :
  get_class_extensions m cls = extension_targets m cls.
Proof.
  unfold get_class_extensions, extension_targets, with_association.
  induction (attribute m cls) as [|a l IH]; [done|].
  rewrite filter_cons. simpl. destruct (Property.association a) as [assoc|] eqn:Ha.
  - rewrite decide_True by eauto. simpl. rewrite Ha. simpl.
    case_decide; simpl; [f_equal|]; exact IH.
  - rewrite decide_False by (by intros [? ?]). apply IH.
Qed.

(** The loop of [create_class_trees], from any dictionary built so far. *)
Lemma create_class_trees_loop classes d :
  let trees :=
    foldl (λ trees cls, Dict.setitem cls (parent_list m cls) trees) d classes in
  (NoDup (Dict.keys d) → NoDup (Dict.keys trees)) ∧
  (∀ cls, cls ∈ Dict.keys trees ↔ cls ∈ Dict.keys d ∨ cls ∈ classes) ∧
  (∀ cls, cls ∈ classes → Dict.getitem cls trees = Some (parent_list m cls)) ∧
  (∀ cls, cls ∉ classes → Dict.getitem cls trees = Dict.getitem cls d) ∧
  (NoDup classes → (∀ cls, cls ∈ classes → cls ∉ Dict.keys d) →
   Dict.keys trees = Dict.keys d ++ classes).
Proof.
  revert d. induction classes as [|c classes IH]; intros d; simpl.
  { repeat split; try set_solver. intros. by rewrite app_nil_r. }
  destruct (IH (Dict.setitem c (parent_list m c) d)) as (IH1 & IH2 & IH3 & IH4 & IH5).
  repeat split.
  - intros Hnd. by apply IH1, keys_setitem_NoDup.
  - rewrite IH2, keys_setitem_elem. set_solver.
  - rewrite IH2, keys_setitem_elem. set_solver.
  - intros cls Hin. destruct (decide (cls ∈ classes)) as [|Hnin]; [by apply IH3|].
    rewrite IH4 by done. assert (cls = c) as -> by set_solver.
    apply getitem_setitem_eq.
  - intros cls Hnin. rewrite IH4 by set_solver.
    apply getitem_setitem_ne. set_solver.
  - intros Hnd Hfresh. apply NoDup_cons in Hnd as [Hc Hnd].
    rewrite IH5; [|done|].
    + rewrite keys_setitem_new by set_solver. by rewrite <- app_assoc.
    + intros cls Hin. rewrite keys_setitem_elem. set_solver.
Qed.

Lemma create_class_trees_NoDup classes :
  NoDup (Dict.keys (create_class_trees m classes)).
Proof. apply (create_class_trees_loop classes []). constructor. Qed.

Lemma create_class_trees_keys classes cls :
  cls ∈ Dict.keys (create_class_trees m classes) ↔ cls ∈ classes.
Proof.
  destruct (create_class_trees_loop classes []) as (_ & H & _).
  unfold create_class_trees. rewrite H. set_solver.
Qed.

Lemma create_class_trees_getitem classes cls :
  cls ∈ classes →
  Dict.getitem cls (create_class_trees m classes) = Some (parent_list m cls).
Proof. apply (create_class_trees_loop classes []). Qed.

Lemma create_class_trees_elem classes cls parents :
  (cls, parents) ∈ create_class_trees m classes →
  cls ∈ classes ∧ parents = parent_list m cls.
Proof.
  intros Hin.
  assert (cls ∈ classes) as Hcls.
  { apply create_class_trees_keys. unfold Dict.keys.
    apply list_elem_of_fmap. by exists (cls, parents). }
  split; [done|].
  apply elem_getitem in Hin; [|apply create_class_trees_NoDup].
  rewrite create_class_trees_getitem in Hin by done. congruence.
Qed.

Lemma create_referenced_elem classes x :
  x ∈ create_referenced m classes ↔ ∃ cls, cls ∈ classes ∧ x ∈ parent_list m cls.
Proof.
  unfold create_referenced.
  assert (∀ (l : list Class) (r : gset Class),
            x ∈ foldl (λ r y, {[y]} ∪ r) r l ↔ x ∈ r ∨ x ∈ l) as Hadd.
  { induction l as [|y l IH]; intros r; simpl; [set_solver|].
    rewrite IH. set_solver. }
  assert (∀ (r : gset Class),
            x ∈ foldl (λ referenced cls,
                 let referenced :=
                   foldl (λ r gen, {[gen]} ∪ r) referenced (general m cls) in
                 foldl (λ r meta_cls, {[meta_cls]} ∪ r) referenced
                       (get_class_extensions m cls)) r classes
            ↔ x ∈ r ∨ ∃ cls, cls ∈ classes ∧ x ∈ parent_list m cls) as Hloop.
  { induction classes as [|c l IH]; intros r; simpl; [set_solver|].
    rewrite IH, !Hadd. unfold parent_list. set_solver. }
  rewrite Hloop. set_solver.
Qed.
End GraphFacts.

(** ** Rules of the monad *)

Section Rules.
Context {A B : Type}.

Lemma bind_Return (c : M A) (k : A → M B) st a st' :
  c st = (Return a, st') → (c ≫= k) st = k a st'.
Proof. intros H. unfold mbind, M_bind. by rewrite H. Qed.

Lemma bind_run (c : M A) (k : A → M B) st :
  (c ≫= k) st = match c st with
                | (Return a, st') => k a st'
                | (Raise e, st') => (Raise e, st')
                | (Unfinished, st') => (Unfinished, st')
                end.
Proof. reflexivity. Qed.

Lemma ret_run (a : A) st : (mret a : M A) st = (Return a, st).
Proof. reflexivity. Qed.

Lemma hoare_ret (P : Locals.t → Prop) (Q : A → Locals.t → Prop) a :
  (∀ st, P st → Q a st) → hoare P (mret a) Q.
Proof. intros H st HP. exists a, st. split; [done | auto]. Qed.

Lemma hoare_bind (P : Locals.t → Prop) (Q : A → Locals.t → Prop)
    (R : B → Locals.t → Prop) (c : M A) (k : A → M B) :
  hoare P c Q → (∀ a, hoare (Q a) (k a) R) → hoare P (c ≫= k) R.
Proof.
  intros Hc Hk st HP. destruct (Hc st HP) as (a & st' & Hrun & HQ).
  rewrite (bind_Return _ _ _ _ _ Hrun). by apply Hk.
Qed.

End Rules.

Lemma hoare_for_each {A} (I : Locals.t → Prop) (l : list A) (body : A → M unit) :
  (∀ x, x ∈ l → hoare I (body x) (λ _, I)) →
  hoare I (for_each l body) (λ _, I).
Proof.
  induction l as [|x l IH]; intros Hbody; simpl.
  - by apply hoare_ret.
  - eapply hoare_bind; [apply Hbody; left|]. intros []. apply IH.
    intros y Hy. apply Hbody. by right.
Qed.

Lemma write_spec l st : write l st = (Return tt, written_to st [l]).
Proof. reflexivity. Qed.

(** Writing a list of lines one by one. *)
Lemma for_each_write lines st :
  for_each lines write st = (Return tt, written_to st lines).
Proof.
  revert st. induction lines as [|l lines IH]; intros st; simpl.
  - unfold mret, M_ret, written_to. rewrite app_nil_r. by destruct st.
  - erewrite bind_Return by reflexivity. rewrite IH. unfold written_to. simpl.
    by rewrite <- app_assoc.
Qed.

Lemma written_to_app st l1 l2 :
  written_to (written_to st l1) l2 = written_to st (l1 ++ l2).
Proof. unfold written_to. simpl. by rewrite <- app_assoc. Qed.

Lemma written_to_nil st : written_to st [] = st.
Proof. unfold written_to. rewrite app_nil_r. by destruct st. Qed.

(** ** One class *)

Section EmitterFacts.
Variable m : ElementFactory.

Lemma write_attributes_spec cls st :
  write_attributes m cls st = (Return tt, written_to st (class_body m cls)).
Proof.
  unfold write_attributes, class_body.
  set (lines := _ ++ _ ++ _).
  erewrite bind_Return by apply for_each_write.
  case_decide as Hlines.
  - rewrite bool_decide_eq_false_2 by (by intros ?).
    rewrite Hlines, written_to_nil. reflexivity.
  - rewrite bool_decide_eq_true_2 by done.
    reflexivity.
Qed.

Lemma class_body_lines cls : Forall body_line (class_body m cls).
Proof.
  unfold class_body. case_decide; [by repeat constructor|].
  rewrite !Forall_app, !Forall_fmap. repeat split; by apply Forall_true.
Qed.

(** When no written name is [None], parents that pass the check all have
    names, so joining them does not fail. *)
Lemma str_list_satisfied written parents :
  None ∉ written → satisfied m written parents →
  str_list (name m <$> parents) = Return (omap (name m) parents).
Proof.
  intros Hnone Hsat. unfold str_list, satisfied in *.
  assert (mapM id (name m <$> parents) = Some (omap (name m) parents)) as ->; [|done].
  apply mapM_Some. induction parents as [|p parents IH]; [constructor|].
  rewrite fmap_cons in Hsat. apply Forall_cons in Hsat as [Hp Hsat].
  rewrite fmap_cons. cbn [omap list_omap].
  destruct (name m p) as [s|] eqn:Hname; [|done].
  constructor; [done|]. by apply IH.
Qed.

(** [write_class_signature] on a key of the tree: the class definition is
    written exactly when the parent check passes, and the result tells. *)
Lemma write_class_signature_spec trees cls parents st :
  Dict.getitem cls trees = Some parents →
  None ∉ Locals.cls_written st →
  write_class_signature m trees cls st =
    if decide (satisfied m (Locals.cls_written st) parents)
    then (Return true, written_to st (class_block m cls parents))
    else (Return false, st).
Proof.
  intros Hget Hnone. unfold write_class_signature. rewrite Hget.
  erewrite bind_Return by reflexivity.
  destruct parents as [|p parents].
  - rewrite decide_False by (by intros ?).
    rewrite decide_True by constructor.
    erewrite bind_Return by apply write_spec.
    erewrite bind_Return by apply write_attributes_spec.
    unfold mret, M_ret. by rewrite written_to_app.
  - rewrite decide_True by done. unfold satisfied. case_decide as Hsat; [|done].
    erewrite bind_Return.
    2:{ unfold lift. by rewrite (str_list_satisfied _ _ Hnone Hsat). }
    erewrite bind_Return by apply write_spec.
    erewrite bind_Return by apply write_attributes_spec.
    unfold mret, M_ret. by rewrite written_to_app.
Qed.

Lemma write_class_signature_attempt trees cls st :
  cls ∈ Dict.keys trees →
  None ∉ Locals.cls_written st →
  ∃ written : bool,
    write_class_signature m trees cls st
      = (Return written, written_to st (attempt m trees (Locals.cls_written st) cls))
    ∧ (written = true ↔ attempt m trees (Locals.cls_written st) cls ≠ []).
Proof.
  intros Hkey Hnone. destruct (getitem_is_Some _ _ Hkey) as [parents Hget].
  rewrite (write_class_signature_spec _ _ _ _ Hget Hnone).
  unfold attempt. rewrite Hget. case_decide.
  - exists true. split; [done|]. by split.
  - exists false. rewrite written_to_nil. split; [done|]. by split.
Qed.
End EmitterFacts.

(** ** The deferred pass, from any state *)

Section SecondPass.
Variable m : ElementFactory.
Variable trees : Dict.t (list Class).

Lemma str_list_names (l : list Class) names :
  mapM id (name m <$> l) = Some names → names = omap (name m) l.
Proof.
  rewrite mapM_Some. revert names. induction l as [|x l IH]; intros names Hnames.
  - by inversion Hnames.
  - rewrite fmap_cons in Hnames. inversion Hnames as [|? y ? ks Hx Hl]; subst.
    cbn [omap list_omap]. simpl in Hx. rewrite Hx. f_equal. by apply IH.
Qed.



(** The lines of an attempt: a signature for that very class, written
    when its parent check passes, and body lines. *)
Lemma attempt_signature written cls cls' cls_name base_classes :
  Signature cls' cls_name base_classes ∈ attempt m trees written cls →
  cls' = cls ∧ cls_name = name m cls ∧
  ∃ parents, Dict.getitem cls trees = Some parents ∧ satisfied m written parents
             ∧ base_classes = omap (name m) parents.
Proof.
  unfold attempt. destruct (Dict.getitem cls trees) as [parents|]; [|set_solver].
  case_decide as Hsat; [|set_solver]. unfold class_block.
  intros [[= -> -> ->] | Hbody]%elem_of_cons; [eauto 10|].
  pose proof (class_body_lines m cls) as Hlines.
  rewrite Forall_forall in Hlines. by apply Hlines in Hbody.
Qed.

(** With every deferred class a key of the tree and no [None] among the
    written names, the pass returns and writes one attempt per class. *)
Lemma second_pass_loop deferred st :
  (∀ cls, cls ∈ deferred → cls ∈ Dict.keys trees) →
  None ∉ Locals.cls_written st →
  for_each deferred (λ cls, write_class_signature m trees cls;; mret tt) st
    = (Return tt,
       written_to st (flat_map (attempt m trees (Locals.cls_written st)) deferred)).
Proof.
  revert st. induction deferred as [|cls deferred IH]; intros st Hkeys Hnone; simpl.
  { by rewrite written_to_nil. }
  destruct (write_class_signature_attempt m trees cls st) as (w & Hrun & _);
    [set_solver | done |].
  erewrite bind_Return.
  2:{ erewrite bind_Return by apply Hrun. reflexivity. }
  rewrite IH; [|set_solver|done]. by rewrite written_to_app.
Qed.
End SecondPass.

(** ** Order of the file *)

Lemma ordered_nil : ordered [].
Proof. intros [|? ?] ? ? ? ? Heq; discriminate Heq. Qed.

Lemma ordered_snoc f l :
  ordered f →
  (∀ cls cls_name base_classes,
     l = Signature cls cls_name base_classes →
     ∀ b, b ∈ base_classes → ∃ l', l' ∈ f ∧ defines l' b) →
  ordered (f ++ [l]).
Proof.
  intros Hf Hl pre cls cls_name base_classes post Heq b Hb.
  destruct post as [|x post _] using rev_ind.
  - change (f ++ [l] = pre ++ [Signature cls cls_name base_classes]) in Heq.
    apply app_inj_tail in Heq as [-> ->]. eauto.
  - rewrite app_comm_cons, app_assoc in Heq.
    apply app_inj_tail in Heq as [-> ->]. eauto.
Qed.

Lemma ordered_app_body f lines :
  ordered f → Forall body_line lines → ordered (f ++ lines).
Proof.
  revert f. induction lines as [|l lines IH]; intros f Hf Hlines.
  - by rewrite app_nil_r.
  - apply Forall_cons in Hlines as [Hl Hlines].
    rewrite cons_middle, app_assoc. apply IH; [|done].
    apply ordered_snoc; [done|]. intros ? ? ? ->. done.
Qed.

(** ** The passes of generate *)

Section Passes.
Variable m : ElementFactory.
Variables classes found : list Class.
Let trees := create_class_trees m classes.
Hypothesis classes_named : ∀ cls, cls ∈ classes → truthy (name m cls) = true.
Hypothesis found_classes : ∀ cls, cls ∈ found → cls ∈ classes.

Lemma emitter_inv_init : emitter_inv m classes found Locals.init.
Proof.
  unfold emitter_inv. simpl. repeat split; try set_solver. apply ordered_nil.
Qed.

Lemma emitter_inv_None st :
  emitter_inv m classes found st → None ∉ Locals.cls_written st.
Proof. intros (H1 & _) Hin. by destruct (H1 _ Hin) as (? & ? & _ & _ & ? & _). Qed.

(** Growing the state keeps the invariant, given what is new. *)
Lemma emitter_inv_extend st lines written deferred :
  emitter_inv m classes found st →
  ordered (Locals.f st ++ lines) →
  (∀ cls cls_name base_classes,
     Signature cls cls_name base_classes ∈ lines →
     cls ∈ found ∧ cls_name = name m cls
     ∧ Some <$> base_classes = name m <$> parent_list m cls
     ∧ ∀ b, b ∈ base_classes → Some b ∈ Locals.cls_written st) →
  (∀ cls_name, Import cls_name ∈ lines → ∃ cls, cls ∈ classes ∧ name m cls = cls_name) →
  (∀ n, n ∈ written →
        n ∈ Locals.cls_written st ∨
        ∃ cls l, cls ∈ classes ∧ name m cls = n ∧ l ∈ lines
                 ∧ ∀ s, n = Some s → defines l s) →
  (∀ cls, cls ∈ deferred → cls ∈ Locals.classes_deferred st ∨ cls ∈ found) →
  emitter_inv m classes found
    {| Locals.f := Locals.f st ++ lines; Locals.cls_written := written;
       Locals.classes_deferred := deferred |}.
Proof.
  intros (I1 & I2 & I3 & I4 & I5) Hord Hsig Himp Hwr Hdef.
  unfold emitter_inv. simpl. repeat split.
  - intros n Hn. destruct (Hwr n Hn) as [Hold | (cls & l & Hcls & Hname & Hl & Hdefs)].
    + destruct (I1 n Hold) as (cls & s & ? & ? & ? & l & ? & ?).
      exists cls, s. repeat split; try done. exists l. set_solver.
    + pose proof (classes_named cls Hcls) as Htruthy.
      destruct (name m cls) as [s|] eqn:Hs; [|done]. subst n.
      exists cls, s. repeat split; try done. exists l. set_solver.
  - done.
  - apply elem_of_app in H as [Hold | Hnew]; [by apply (I3 _ _ _ Hold)|].
    by apply (Hsig _ _ _ Hnew).
  - apply elem_of_app in H as [Hold | Hnew]; [by apply (I3 _ _ _ Hold)|].
    by apply (Hsig _ _ _ Hnew).
  - apply elem_of_app in H as [Hold | Hnew]; [by apply (I3 _ _ _ Hold)|].
    by apply (Hsig _ _ _ Hnew).
  - intros b Hb. apply elem_of_app in H as [Hold | Hnew].
    + by apply (I3 _ _ _ Hold).
    + destruct (Hsig _ _ _ Hnew) as (_ & _ & _ & Hbases).
      destruct (I1 _ (Hbases b Hb)) as (cls' & s & ? & ? & [= <-] & _). eauto.
  - intros cls_name [Hold | Hnew]%elem_of_app; [by apply I4 | by apply Himp].
  - intros cls Hcls. destruct (Hdef cls Hcls); auto.
Qed.

(** The loop that imports the UML classes. *)
Lemma import_loop_inv (uml_classes : list Class) :
  (∀ cls, cls ∈ uml_classes → cls ∈ classes) →
  hoare (emitter_inv m classes found)
        (for_each uml_classes (λ cls,
           write (Import (name m cls));; cls_written_add (name m cls)))
        (λ _, emitter_inv m classes found).
Proof.
  intros Hsub. apply hoare_for_each. intros cls Hcls st Hinv.
  eexists tt, _. split; [reflexivity|]. simpl.
  apply emitter_inv_extend; try done.
  - apply ordered_snoc; [apply Hinv|]. intros ? ? ? [=].
  - intros ? ? ? [[=] | []%elem_of_nil]%elem_of_cons.
  - intros ? [[= ->] | []%elem_of_nil]%elem_of_cons. eauto.
  - intros n [->%elem_of_singleton | Hn]%elem_of_union; [right | by left].
    exists cls, (Import (name m cls)). repeat split; [auto | left |]. by intros s ->.
  - auto.
Qed.

(** Parents that pass the check have names, and those are the base names. *)
Lemma satisfied_names written parents :
  None ∉ written → satisfied m written parents →
  Some <$> omap (name m) parents = name m <$> parents.
Proof.
  intros Hnone Hsat. unfold satisfied in Hsat.
  induction parents as [|p parents IH]; [done|].
  rewrite fmap_cons in Hsat. apply Forall_cons in Hsat as [Hp Hsat].
  rewrite fmap_cons. cbn [omap list_omap].
  destruct (name m p) as [s|] eqn:Hs; [|done].
  rewrite fmap_cons. f_equal. by apply IH.
Qed.

Lemma satisfied_base written parents b :
  satisfied m written parents → b ∈ omap (name m) parents → Some b ∈ written.
Proof.
  unfold satisfied. rewrite Forall_forall. intros Hsat Hb. apply Hsat.
  apply list_elem_of_omap in Hb as (p & Hp & <-). by apply list_elem_of_fmap_2.
Qed.

(** One attempt at a found class keeps the invariant; [record] tells
    whether the class name is then added to the written set. *)
Lemma attempt_inv st cls (record : bool) :
  emitter_inv m classes found st →
  cls ∈ found →
  (record = true → attempt m trees (Locals.cls_written st) cls ≠ []) →
  emitter_inv m classes found
    {| Locals.f := Locals.f st ++ attempt m trees (Locals.cls_written st) cls;
       Locals.cls_written :=
         if record then {[name m cls]} ∪ Locals.cls_written st
         else Locals.cls_written st;
       Locals.classes_deferred := Locals.classes_deferred st |}.
Proof.
  intros Hinv Hcls Hrecord.
  pose proof (emitter_inv_None _ Hinv) as Hnone.
  assert (∀ cls' cls_name base_classes,
            Signature cls' cls_name base_classes
              ∈ attempt m trees (Locals.cls_written st) cls →
            cls' = cls ∧ cls_name = name m cls
            ∧ satisfied m (Locals.cls_written st) (parent_list m cls)
            ∧ base_classes = omap (name m) (parent_list m cls)) as Hsig.
  { intros cls' cls_name base_classes Hin.
    apply attempt_signature in Hin as (-> & -> & parents & Hget & Hsat & ->).
    unfold trees in Hget. rewrite create_class_trees_getitem in Hget by auto.
    by injection Hget as <-. }
  apply emitter_inv_extend; try done.
  - unfold attempt. destruct (Dict.getitem cls trees) as [parents|];
      [|rewrite app_nil_r; apply Hinv].
    case_decide as Hsat; [|rewrite app_nil_r; apply Hinv].
    unfold class_block. rewrite cons_middle, app_assoc.
    apply ordered_app_body; [|apply class_body_lines].
    apply ordered_snoc; [apply Hinv|]. intros ? ? ? [= <- <- <-] b Hb.
    destruct Hinv as (I1 & _).
    destruct (I1 _ (satisfied_base _ _ _ Hsat Hb)) as (? & s & _ & _ & [= <-] & ?).
    done.
  - intros cls' cls_name base_classes Hin.
    destruct (Hsig _ _ _ Hin) as (-> & -> & Hsat & ->).
    repeat split; [done | by apply (satisfied_names (Locals.cls_written st))|].
    intros b Hb. by apply (satisfied_base _ _ _ Hsat).
  - intros cls_name Hin. unfold attempt in Hin.
    destruct (Dict.getitem cls trees) as [parents|]; [|set_solver].
    case_decide; [|set_solver]. unfold class_block in Hin.
    apply elem_of_cons in Hin as [[=] | Hbody].
    pose proof (class_body_lines m cls) as Hlines.
    rewrite Forall_forall in Hlines. by apply Hlines in Hbody.
  - destruct record; [|auto].
    intros n [->%elem_of_singleton | Hn]%elem_of_union; [right | by left].
    specialize (Hrecord eq_refl). unfold attempt in *.
    destruct (Dict.getitem cls trees) as [parents|]; [|done].
    case_decide; [|done].
    exists cls, (Signature cls (name m cls) (omap (name m) parents)).
    repeat split; [auto | left |]. by intros s ->.
  - auto.
Qed.

Lemma found_keys cls : cls ∈ found → cls ∈ Dict.keys trees.
Proof. intros Hcls. apply create_class_trees_keys. auto. Qed.

Lemma first_pass_inv :
  hoare (emitter_inv m classes found)
        (first_pass m trees found)
        (λ _, emitter_inv m classes found).
Proof.
  apply hoare_for_each. intros cls Hcls st Hinv.
  pose proof (emitter_inv_None _ Hinv) as Hnone.
  erewrite bind_Return by reflexivity. case_decide as Hnew.
  2:{ exists tt, st. by rewrite ret_run. }
  destruct (write_class_signature_attempt m trees cls st (found_keys _ Hcls) Hnone)
    as (written & Hrun & Hwritten).
  destruct written.
  - erewrite bind_Return by apply Hrun.
    eexists tt, _. split; [reflexivity|]. simpl.
    apply (attempt_inv st cls true); [done | done |]. intros _. by apply Hwritten.
  - assert (attempt m trees (Locals.cls_written st) cls = []) as Hnil.
    { destruct (attempt m trees (Locals.cls_written st) cls); [done|].
      by destruct Hwritten as [_ Hw]; discriminate Hw. }
    rewrite Hnil, written_to_nil in Hrun.
    erewrite bind_Return by apply Hrun.
    eexists tt, _. split; [reflexivity|]. simpl.
    rewrite <- (app_nil_r (Locals.f st)).
    apply emitter_inv_extend; try done.
    + rewrite app_nil_r. apply Hinv.
    + set_solver.
    + set_solver.
    + auto.
    + intros c [? | ->%list_elem_of_singleton]%elem_of_app; auto.
Qed.

Lemma second_pass_inv :
  hoare (emitter_inv m classes found)
        (second_pass m trees)
        (λ _, emitter_inv m classes found).
Proof.
  intros st Hinv. unfold second_pass.
  erewrite bind_Return by reflexivity.
  assert (hoare (emitter_inv m classes found)
            (for_each (Locals.classes_deferred st) (λ cls,
               write_class_signature m trees cls;; mret tt))
            (λ _, emitter_inv m classes found)) as Hloop; [|by apply Hloop].
  apply hoare_for_each. intros cls Hcls st' Hinv'.
  assert (cls ∈ found) as Hfound by (by apply Hinv).
  pose proof (emitter_inv_None _ Hinv') as Hnone.
  destruct (write_class_signature_attempt m trees cls st' (found_keys _ Hfound) Hnone)
    as (written & Hrun & _).
  erewrite bind_Return by apply Hrun.
  eexists tt, _. split; [reflexivity|].
  by apply (attempt_inv st' cls false).
Qed.
End Passes.

(** ** The filter on class names *)

Section Filter.
Variable m : ElementFactory.

Lemma drop_tilde_Return classes kept :
  drop_tilde m classes = Return kept →
  (∀ cls, cls ∈ classes → truthy (name m cls) = true) ∧
  kept = filter (λ cls, begins_with_tilde (name m cls) = false) classes.
Proof.
  revert kept. induction classes as [|cls classes IH]; intros kept; simpl.
  { intros [= <-]. split; [set_solver | done]. }
  destruct (name m cls) as [[|c s]|] eqn:Hname; simpl; try done.
  destruct (drop_tilde m classes) as [kept'| |]; try done.
  intros [= <-]. destruct (IH kept' eq_refl) as [Hnamed ->]. split.
  - intros cls' [-> | Hin]%elem_of_cons; [by rewrite Hname | auto].
  - rewrite filter_cons, Hname. simpl.
    destruct (decide (c ≠ "~"%char)) as [Hc | Hc].
    + rewrite decide_True; [done|]. by apply bool_decide_eq_false.
    + rewrite decide_False; [done|]. rewrite bool_decide_eq_false. done.
Qed.

Lemma drop_tilde_Raise classes e :
  drop_tilde m classes = Raise e →
  ∃ cls, cls ∈ classes ∧ truthy (name m cls) = false.
Proof.
  induction classes as [|cls classes IH]; simpl; [done|].
  destruct (name m cls) as [[|c s]|] eqn:Hname; simpl.
  - intros _. exists cls. rewrite Hname. split; [left | done].
  - destruct (drop_tilde m classes) as [kept'| |]; try done.
    intros [= <-]. destruct IH as (cls' & ? & ?); [done|]. exists cls'. split; [by right | done].
  - intros _. exists cls. rewrite Hname. split; [left | done].
Qed.

Lemma drop_tilde_finishes classes : drop_tilde m classes ≠ Unfinished.
Proof.
  induction classes as [|cls classes IH]; simpl; [done|].
  destruct (name m cls) as [[|c s]|]; simpl; try done.
  by destruct (drop_tilde m classes).
Qed.

Lemma drop_tilde_total classes :
  (∀ cls, cls ∈ classes → truthy (name m cls) = true) →
  ∃ kept, drop_tilde m classes = Return kept.
Proof.
  intros Hnamed. destruct (drop_tilde m classes) as [kept|e|] eqn:Hrun.
  - eauto.
  - apply drop_tilde_Raise in Hrun as (cls & Hcls & Hfalse).
    rewrite Hnamed in Hfalse by done. done.
  - by apply drop_tilde_finishes in Hrun.
Qed.
End Filter.

(** ** generate, as a whole *)

Section Run.
Variable uml_directory : list string.
Variable m : ElementFactory.

(** A class without a usable name stops [generate] right after the header. *)
Lemma generate_body_Raise e :
  drop_tilde m (lselect_Class m) = Raise e →
  generate_body uml_directory m Locals.init = (Raise e, written_to Locals.init [Header]).
Proof.
  intros Hdrop. unfold generate_body.
  erewrite bind_Return by apply write_spec.
  rewrite bind_run. unfold lift. by rewrite Hdrop.
Qed.

(** Otherwise [generate] returns, and the invariant holds at the end. *)
Lemma generate_body_Return classes :
  drop_tilde m (lselect_Class m) = Return classes →
  ∃ found st,
    breadth_first_search (create_class_trees m classes)
      (find_root_nodes (create_class_trees m classes) (create_referenced m classes))
    = Some found
    ∧ generate_body uml_directory m Locals.init = (Return tt, st)
    ∧ emitter_inv m classes found st.
Proof.
  intros Hdrop. unfold generate_body.
  destruct (drop_tilde_Return _ _ _ Hdrop) as [Hnamed Hkept].
  assert (∀ cls, cls ∈ classes → truthy (name m cls) = true) as Hclasses.
  { intros cls Hcls. apply Hnamed. rewrite Hkept in Hcls.
    by apply list_elem_of_filter in Hcls as [_ ?]. }
  set (trees := create_class_trees m classes).
  set (root_nodes := find_root_nodes trees (create_referenced m classes)).
  destruct (breadth_first_search_total trees root_nodes) as [found Hsearch].
  assert (∀ cls, cls ∈ found → cls ∈ classes) as Hfound.
  { intros cls Hcls. apply (create_class_trees_keys m).
    by apply (breadth_first_search_keys _ _ _ _ Hsearch). }
  erewrite bind_Return by apply write_spec.
  erewrite bind_Return by (unfold lift; by rewrite Hdrop).
  set (rest := _ ≫= _).
  assert (hoare (emitter_inv m classes found) rest
                (λ _, emitter_inv m classes found)) as Hrest.
  { eapply hoare_bind.
    - apply (import_loop_inv m classes found Hclasses Hfound). intros cls Hcls.
      by apply list_elem_of_filter in Hcls as [_ ?].
    - intros [] st' Hinv'. fold trees. fold root_nodes. rewrite Hsearch.
      erewrite bind_Return by reflexivity.
      revert st' Hinv'.
      eapply hoare_bind; [exact (first_pass_inv m classes found Hclasses Hfound)|].
      intros []. exact (second_pass_inv m classes found Hclasses Hfound). }
  destruct (Hrest (written_to Locals.init [Header])) as ([] & st & Hrun & Hinv).
  { apply emitter_inv_extend; try done.
    - by apply emitter_inv_init.
    - apply (ordered_snoc []); [apply ordered_nil|]. intros ? ? ? [=].
    - intros ? ? ? [[=] | []%elem_of_nil]%elem_of_cons.
    - intros ? [[=] | []%elem_of_nil]%elem_of_cons.
    - auto. }
  exists found, st. auto.
Qed.
End Run.

(** ** The class tree *)

(** C8: [create_class_trees] has exactly one entry per input class, also
    for a class without parents, and the entry of a class is its
    generalization targets in the order of [cls.general], followed by the
    class at the other end of each owned association end named
    [baseClass]. The function only reads the model: it is a function of
    the element factory and has no access to any mutable object. *)
Theorem create_class_trees_entries (m : ElementFactory) (classes : list Class) :
  let trees := create_class_trees m classes in
  NoDup (Dict.keys trees) ∧
  (∀ cls, cls ∈ Dict.keys trees ↔ cls ∈ classes) ∧
  (∀ cls, cls ∈ classes →
          Dict.getitem cls trees = Some (general m cls ++ extension_targets m cls)) ∧
  (NoDup classes → Dict.keys trees = classes).
Proof.
  simpl. repeat split.
  - apply create_class_trees_NoDup.
  - by apply create_class_trees_keys.
  - by apply create_class_trees_keys.
  - intros cls Hcls. rewrite <- get_class_extensions_targets.
    by apply create_class_trees_getitem.
  - intros Hnd. destruct (create_class_trees_loop m classes []) as (_ & _ & _ & _ & H).
    apply H; [done|]. set_solver.
Qed.

Lemma create_class_trees_entries_witness :
  Dict.getitem 2%positive (create_class_trees chain_model (lselect_Class chain_model))
    = Some [1%positive]
  ∧ Dict.keys (create_class_trees chain_model (lselect_Class chain_model))
    = lselect_Class chain_model.
Proof.
  pose proof (create_class_trees_entries chain_model (lselect_Class chain_model))
    as (_ & _ & Hget & Hkeys).
  split.
  - apply (Hget 2%positive). apply (bool_decide_unpack _). vm_compute. exact I.
  - apply Hkeys. apply (bool_decide_unpack _). vm_compute. exact I.
Defined.

(** The chain of the three classes of [chain_model], end to end: the
    import of the UML class, then [Y], then [Z]. *)
Example chain_output :
  output ["Element"] chain_model
  = [ Header; Import (Some "Element");
      Signature 2%positive (Some "Y") ["Element"]; Attribute (Some "label") (Some "str");
      Signature 3%positive (Some "Z") ["Y"]; Pass ]
  ∧ text [ Import (Some "Element");
           Signature 2%positive (Some "Y") ["Element"];
           Attribute (Some "label") (Some "str");
           Signature 3%positive (Some "Z") ["Y"]; Pass ]
    = "from gaphor.UML import Element

class Y(Element):
    label: attribute[str]
class Z(Y):
    pass

".
Proof. split; vm_compute; reflexivity. Qed.

(** ** Classes that are left out *)

Section Omitted.
Variable uml_directory : list string.
Variable m : ElementFactory.

(** No signature is written for a class the search does not find. *)
Lemma output_signature_found classes found cls cls_name base_classes :
  drop_tilde m (lselect_Class m) = Return classes →
  breadth_first_search (create_class_trees m classes)
    (find_root_nodes (create_class_trees m classes) (create_referenced m classes))
  = Some found →
  Signature cls cls_name base_classes ∈ output uml_directory m →
  cls ∈ found.
Proof.
  intros Hdrop Hsearch Hin.
  destruct (generate_body_Return uml_directory m classes Hdrop)
    as (found' & st & Hsearch' & Hrun & Hinv).
  rewrite Hsearch in Hsearch'. injection Hsearch' as <-.
  unfold output in Hin. rewrite Hrun in Hin.
  destruct Hinv as (_ & _ & I3 & _). by apply I3 in Hin as [? _].
Qed.

(** When a class has no usable name, only the header is written. *)
Lemma output_Raise e :
  drop_tilde m (lselect_Class m) = Raise e → output uml_directory m = [Header].
Proof.
  intros Hdrop. unfold output. by rewrite (generate_body_Raise _ _ _ Hdrop).
Qed.
End Omitted.


(** Names that reach the file are names of kept classes. *)
Lemma output_names_kept (uml_directory : list string) (m : ElementFactory)
    (classes : list Class) (l : line) (n : option string) :
  drop_tilde m (lselect_Class m) = Return classes →
  l ∈ output uml_directory m → names_class l n →
  ∃ cls, cls ∈ classes ∧ name m cls = n.
Proof.
  intros Hdrop Hl Hnames.
  destruct (generate_body_Return uml_directory m classes Hdrop)
    as (found & st & Hsearch & Hrun & Hinv).
  assert (∀ cls, cls ∈ found → cls ∈ classes) as Hfound.
  { intros cls Hcls. apply (create_class_trees_keys m).
    by apply (breadth_first_search_keys _ _ _ _ Hsearch). }
  unfold output in Hl. rewrite Hrun in Hl. simpl in Hl.
  destruct Hinv as (_ & _ & I3 & I4 & _).
  destruct l as [|cls_name|cls cls_name base_classes| | | |]; simpl in Hnames; try done.
  - subst. by apply I4.
  - destruct (I3 _ _ _ Hl) as (Hcls & -> & _ & Hbases).
    destruct Hnames as [<- | (b & -> & Hb)%list_elem_of_fmap]; [eauto | auto].
Qed.

(** C10: when every class of the model has a non-empty name, a class
    whose name begins with [~] is dropped before the tree is built, no
    class signature is written for it, and no import or signature in the
    file names it, not even as a base class. *)
Theorem tilde_class_omitted (uml_directory : list string) (m : ElementFactory)
    (cls : Class) :
  well_named m →
  cls ∈ lselect_Class m →
  begins_with_tilde (name m cls) = true →
  (∃ classes, drop_tilde m (lselect_Class m) = Return classes ∧ cls ∉ classes) ∧
  (∀ cls_name base_classes,
     Signature cls cls_name base_classes ∉ output uml_directory m) ∧
  (∀ l, l ∈ output uml_directory m → ¬ names_class l (name m cls)).
Proof.
  intros Hnamed Hcls Htilde.
  destruct (drop_tilde_total m (lselect_Class m) Hnamed) as [classes Hdrop].
  pose proof (drop_tilde_Return _ _ _ Hdrop) as [_ Hkept].
  assert (∀ c, c ∈ classes → begins_with_tilde (name m c) = false) as Hno_tilde.
  { intros c Hc. rewrite Hkept in Hc. by apply list_elem_of_filter in Hc as [? _]. }
  assert (∀ l, l ∈ output uml_directory m → ¬ names_class l (name m cls)) as Hnot.
  { intros l Hl Hnames.
    destruct (output_names_kept _ _ _ _ _ Hdrop Hl Hnames) as (c & Hc & Heq).
    apply Hno_tilde in Hc. congruence. }
  repeat split.
  - exists classes. split; [done|]. intros Hin. apply Hno_tilde in Hin. congruence.
  - intros cls_name base_classes Hin.
    destruct (generate_body_Return uml_directory m classes Hdrop)
      as (found & st & _ & Hrun & (_ & _ & I3 & _)).
    pose proof Hin as Hin'. unfold output in Hin'. rewrite Hrun in Hin'.
    destruct (I3 _ _ _ Hin') as (_ & -> & _).
    apply (Hnot _ Hin). simpl. by left.
  - exact Hnot.
Qed.

Lemma tilde_class_omitted_witness :
  (∃ classes, drop_tilde tilde_model (lselect_Class tilde_model) = Return classes
              ∧ 1%positive ∉ classes) ∧
  (∀ cls_name base_classes,
     Signature 1%positive cls_name base_classes ∉ output ["Base"] tilde_model) ∧
  (∀ l, l ∈ output ["Base"] tilde_model → ¬ names_class l (Some "~Hidden")).
Proof.
  apply (tilde_class_omitted ["Base"] tilde_model 1%positive).
  - intros cls Hcls.
    repeat (apply elem_of_cons in Hcls as [-> | Hcls]); try reflexivity.
    by apply elem_of_nil in Hcls.
  - left.
  - reflexivity.
Defined.

(** ** Order of emission *)

(** The file is ordered, and each signature lists the names of the
    combined parent list of its class, whatever the model. *)
Lemma output_ordered (uml_directory : list string) (m : ElementFactory) :
  ordered (output uml_directory m) ∧
  ∀ cls cls_name base_classes,
    Signature cls cls_name base_classes ∈ output uml_directory m →
    Some <$> base_classes = name m <$> parent_list m cls.
Proof.
  destruct (drop_tilde m (lselect_Class m)) as [classes|e|] eqn:Hdrop.
  - destruct (generate_body_Return uml_directory m classes Hdrop)
      as (found & st & _ & Hrun & (_ & I2 & I3 & _)).
    unfold output. rewrite Hrun. split; [done|].
    intros cls cls_name base_classes Hin. by apply I3 in Hin as (_ & _ & ? & _).
  - rewrite (output_Raise _ _ _ Hdrop). split.
    + apply (ordered_snoc []); [apply ordered_nil|]. intros ? ? ? [=].
    + intros ? ? ? [[=] | []%elem_of_nil]%elem_of_cons.
  - by apply drop_tilde_finishes in Hdrop.
Qed.

(** C3: for an acyclic model, a class signature is written only when
    every name of its combined parent list is in the written set, so in
    the file each base class named by a signature is imported or defined on
    an earlier line. (The proof does not use that the model is acyclic.) *)
Theorem parents_precede (uml_directory : list string) (m : ElementFactory) :
  acyclic m →
  ∀ pre cls cls_name base_classes post,
    output uml_directory m = pre ++ Signature cls cls_name base_classes :: post →
    Some <$> base_classes = name m <$> parent_list m cls ∧
    ∀ b, b ∈ base_classes → ∃ l, l ∈ pre ∧ defines l b.
Proof.
  intros _ pre cls cls_name base_classes post Heq.
  destruct (output_ordered uml_directory m) as [Hord Hsig]. split.
  - apply (Hsig cls cls_name). rewrite Heq. set_solver.
  - by apply (Hord pre cls cls_name base_classes post).
Qed.

Lemma diamond_model_acyclic : acyclic diamond_model.
Proof.
  exists (λ c, match c with
               | 1 | 2 => 0%nat | 4 => 1%nat | 3 => 2%nat | _ => 3%nat
               end%positive).
  intros cls parent Hcls Hparent.
  repeat (apply elem_of_cons in Hcls as [-> | Hcls]);
    try (by apply elem_of_nil in Hcls);
    vm_compute in Hparent;
    repeat (apply elem_of_cons in Hparent as [-> | Hparent]);
    try (by apply elem_of_nil in Hparent); lia.
Qed.

Lemma parents_precede_witness :
  Some <$> ["R1"; "Q"] = name diamond_model <$> parent_list diamond_model 3%positive ∧
  ∀ b, b ∈ ["R1"; "Q"] →
       ∃ l, l ∈ [ Header; Signature 1%positive (Some "R1") []; Pass;
                  Signature 2%positive (Some "R2") []; Pass;
                  Signature 4%positive (Some "Q") ["R2"]; Pass ]
            ∧ defines l b.
Proof.
  apply (parents_precede [] diamond_model diamond_model_acyclic _ 3%positive
           (Some "P") _ [Pass]).
  vm_compute. reflexivity.
Defined.

(** ** Failure and the destination file *)

(** How [generate] ends: the load fails and the destination is as it
    was; or a class name has no first character and the destination holds
    the header alone; or it returns and the destination holds the output. *)
Lemma generate_cases (uml_directory : list string) (loaded : exn + ElementFactory)
    (outfile : option string) :
  (∃ e, loaded = inl e ∧ generate uml_directory loaded outfile = (Raise e, outfile)) ∨
  (∃ m e, loaded = inr m ∧ ¬ well_named m
          ∧ generate uml_directory loaded outfile = (Raise e, Some header)) ∨
  (∃ m, loaded = inr m ∧ well_named m
        ∧ generate uml_directory loaded outfile
          = (Return tt, Some (text (output uml_directory m)))).
Proof.
  destruct loaded as [e | m]; [left; by exists e | right].
  unfold generate, output.
  destruct (drop_tilde m (lselect_Class m)) as [classes|e|] eqn:Hdrop.
  - right. exists m.
    destruct (generate_body_Return uml_directory m classes Hdrop)
      as (found & st & _ & -> & _).
    repeat split. intros cls Hcls.
    by apply (drop_tilde_Return _ _ _ Hdrop).
  - left. exists m, e. rewrite (generate_body_Raise _ _ _ Hdrop).
    repeat split. intros Hnamed.
    apply drop_tilde_Raise in Hdrop as (cls & Hcls & Hfalse).
    rewrite Hnamed in Hfalse by done. done.
  - by apply drop_tilde_finishes in Hdrop.
Qed.

(** C4, as stated, fails: on [unnamed_model], with no file at the
    destination, [generate] raises and yet leaves a file there. *)
Lemma generate_not_atomic :
  ¬ (∀ (uml_directory : list string) (loaded : exn + ElementFactory)
       (outfile : option string) r after,
       generate uml_directory loaded outfile = (r, after) →
       r ≠ Return tt → after = outfile).
Proof.
  intros H.
  specialize (H [] (inr unnamed_model) None (Raise IndexError) (Some header)).
  by discriminate H.
Qed.

(** C4, amended: [generate] opens the destination for writing before it
    builds the graph, so it ends in one of three ways. Loading the model
    failed, and the destination is untouched. Or some class has no first
    character in its name, [generate] raises, and the destination holds
    exactly the header, whatever was there before. Or [generate] returns
    and the destination holds the generated text. *)
Theorem generate_failure_leaves_header (uml_directory : list string)
    (loaded : exn + ElementFactory) (outfile : option string) r after :
  generate uml_directory loaded outfile = (r, after) →
  (∃ e, loaded = inl e ∧ r = Raise e ∧ after = outfile) ∨
  (∃ m e, loaded = inr m ∧ ¬ well_named m ∧ r = Raise e ∧ after = Some header) ∨
  (∃ m, loaded = inr m ∧ well_named m ∧ r = Return tt
        ∧ after = Some (text (output uml_directory m))).
Proof.
  intros Hrun.
  destruct (generate_cases uml_directory loaded outfile)
    as [(e & -> & Hgen) | [(m & e & -> & Hbad & Hgen) | (m & -> & Hnamed & Hgen)]];
    rewrite Hgen in Hrun; injection Hrun as <- <-.
  - left. by exists e.
  - right. left. by exists m, e.
  - right. right. by exists m.
Qed.

Lemma generate_failure_leaves_header_witness :
  (∃ e, @inr exn _ unnamed_model = inl e ∧ @Raise unit IndexError = Raise e
        ∧ Some header = None) ∨
  (∃ m e, @inr exn _ unnamed_model = inr m ∧ ¬ well_named m
          ∧ @Raise unit IndexError = Raise e ∧ Some header = Some header) ∨
  (∃ m, @inr exn _ unnamed_model = inr m ∧ well_named m
        ∧ @Raise unit IndexError = Return tt
        ∧ Some header = Some (text (output [] m))).
Proof.
  apply (generate_failure_leaves_header [] (inr unnamed_model) None
           (Raise IndexError) (Some header)).
  reflexivity.
Defined.

(** ** No cycle check *)

(** C2, as stated, fails: on [cyclic_model], after the deferred pass the
    parent [B] of [A] is not in the written set, and [generate] returns
    and writes the file. *)
Lemma cyclic_model_generates :
  ¬ (∀ (uml_directory : list string) (m : ElementFactory) (outfile : option string),
       (∃ cls parent,
          cls ∈ lselect_Class m ∧ parent ∈ parent_list m cls ∧
          name m parent
            ∉ Locals.cls_written (generate_body uml_directory m Locals.init).2) →
       ∃ e, generate uml_directory (inr m) outfile = (Raise e, outfile)).
Proof.
  intros H. destruct (H [] cyclic_model None) as [e He].
  - exists 1%positive, 2%positive. repeat split.
    + left.
    + left.
    + apply (bool_decide_unpack _). vm_compute. exact I.
  - discriminate He.
Qed.

(** When every class has a parent there is no root, the search finds
    nothing, and no class is written. *)
Lemma output_no_root (uml_directory : list string) (m : ElementFactory) :
  (∀ cls, cls ∈ lselect_Class m → parent_list m cls ≠ []) →
  ∀ cls cls_name base_classes,
    Signature cls cls_name base_classes ∉ output uml_directory m.
Proof.
  intros Hparents cls cls_name base_classes Hin.
  destruct (drop_tilde m (lselect_Class m)) as [classes|e|] eqn:Hdrop.
  - assert (find_root_nodes (create_class_trees m classes)
              (create_referenced m classes) = []) as Hroots.
    { apply elem_of_nil_inv. intros root [Helem _]%find_root_nodes_elem.
      apply create_class_trees_elem in Helem as [Hroot Hnil].
      apply (Hparents root); [|done].
      apply drop_tilde_Return in Hdrop as [_ ->].
      by apply list_elem_of_filter in Hroot as [_ ?]. }
    assert (cls ∈ []) as Hcls; [|by apply elem_of_nil in Hcls].
    apply (output_signature_found uml_directory m classes [] cls cls_name
             base_classes Hdrop); [|done].
    rewrite Hroots. apply breadth_first_search_no_root.
  - rewrite (output_Raise _ _ _ Hdrop) in Hin. set_solver.
  - by apply drop_tilde_finishes in Hdrop.
Qed.

(** C2, amended: [generate] has no cycle check. On a model whose classes
    all have a non-empty name it returns and writes the file, whether or
    not a parent name is missing from the written set at the end. When
    every class has a parent, as with two classes that generalize each
    other, no class signature is written at all. *)
Theorem generate_without_cycle_check (uml_directory : list string)
    (m : ElementFactory) (outfile : option string) :
  well_named m →
  generate uml_directory (inr m) outfile
    = (Return tt, Some (text (output uml_directory m))) ∧
  ((∀ cls, cls ∈ lselect_Class m → parent_list m cls ≠ []) →
   ∀ cls cls_name base_classes,
     Signature cls cls_name base_classes ∉ output uml_directory m).
Proof.
  intros Hnamed. split; [|apply output_no_root].
  destruct (generate_cases uml_directory (inr m) outfile)
    as [(e & [=] & _) | [(m' & e & [= <-] & Hbad & _) | (m' & [= <-] & _ & Hgen)]];
    done.
Qed.

Lemma generate_without_cycle_check_witness :
  generate [] (inr cyclic_model) None
    = (Return tt, Some (text (output [] cyclic_model))) ∧
  ∀ cls cls_name base_classes,
    Signature cls cls_name base_classes ∉ output [] cyclic_model.
Proof.
  destruct (generate_without_cycle_check [] cyclic_model None) as [Hgen Hnone].
  - intros cls Hcls.
    repeat (apply elem_of_cons in Hcls as [-> | Hcls]); try reflexivity.
    by apply elem_of_nil in Hcls.
  - split; [exact Hgen|]. apply Hnone. intros cls Hcls.
    repeat (apply elem_of_cons in Hcls as [-> | Hcls]); try discriminate.
    by apply elem_of_nil in Hcls.
Defined.

(** ** The deferred pass *)

(** On [diamond_model] the search visits [P] before its parent [Q], and
    the first pass ends in [diamond_after_first_pass]. *)
Example diamond_first_pass :
  breadth_first_search diamond_trees
    (find_root_nodes diamond_trees
       (create_referenced diamond_model (lselect_Class diamond_model)))
  = Some [1; 2; 3; 4; 5]%positive
  ∧ first_pass diamond_model diamond_trees [1; 2; 3; 4; 5]%positive
      (written_to Locals.init [Header])
    = (Return tt, diamond_after_first_pass).
Proof. split; vm_compute; reflexivity. Qed.

(** C1, as stated, fails: on [diamond_model] the class [D] is deferred
    and the second pass writes nothing for it, its parent [P] not being in
    the written set. *)
Lemma deferred_class_not_forced :
  ¬ (∀ (uml_directory : list string) (m : ElementFactory) (cls : Class),
       cls ∈ Locals.classes_deferred (generate_body uml_directory m Locals.init).2 →
       ∃ cls_name base_classes,
         Signature cls cls_name base_classes ∈ output uml_directory m).
Proof.
  intros H. destruct (H [] diamond_model 5%positive) as (cls_name & base_classes & Hin).
  - apply (bool_decide_unpack _). vm_compute. exact I.
  - assert (output [] diamond_model
            = [ Header; Signature 1%positive (Some "R1") []; Pass;
                Signature 2%positive (Some "R2") []; Pass;
                Signature 4%positive (Some "Q") ["R2"]; Pass;
                Signature 3%positive (Some "P") ["R1"; "Q"]; Pass ]) as Hout
      by (vm_compute; reflexivity).
    rewrite Hout in Hin.
    repeat (apply elem_of_cons in Hin as [[=] | Hin]).
    by apply elem_of_nil in Hin.
Qed.

(** C1, amended: the second pass goes once through the deferred classes
    in the order they were deferred, and calls the same
    [write_class_signature] for each, parent check included, against the
    written set the first pass left. A deferred class is written, signature
    and body, exactly when every name of its parent list is in that set;
    nothing is written for it otherwise. *)
Theorem second_pass_checks_parents (m : ElementFactory) (trees : Dict.t (list Class))
    (st : Locals.t) :
  (∀ cls, cls ∈ Locals.classes_deferred st → cls ∈ Dict.keys trees) →
  None ∉ Locals.cls_written st →
  second_pass m trees st
    = (Return tt,
       written_to st (flat_map (attempt m trees (Locals.cls_written st))
                               (Locals.classes_deferred st)))
  ∧ ∀ cls, cls ∈ Locals.classes_deferred st →
           ∃ parents,
             Dict.getitem cls trees = Some parents ∧
             attempt m trees (Locals.cls_written st) cls
             = if decide (Forall (λ cls_name, cls_name ∈ Locals.cls_written st)
                                 (name m <$> parents))
               then Signature cls (name m cls) (omap (name m) parents)
                      :: class_body m cls
               else [].
Proof.
  intros Hkeys Hnone. split.
  - unfold second_pass. erewrite bind_Return by reflexivity.
    by apply second_pass_loop.
  - intros cls Hcls. destruct (getitem_is_Some _ _ (Hkeys cls Hcls)) as [parents Hget].
    exists parents. split; [done|]. unfold attempt. by rewrite Hget.
Qed.

(** In [generate] the second pass starts from a state of that kind. *)
Lemma second_pass_precondition (m : ElementFactory) (classes found : list Class)
    (st : Locals.t) :
  (∀ cls, cls ∈ found → cls ∈ classes) →
  emitter_inv m classes found st →
  (∀ cls, cls ∈ Locals.classes_deferred st →
          cls ∈ Dict.keys (create_class_trees m classes)) ∧
  None ∉ Locals.cls_written st.
Proof.
  intros Hfound Hinv. split.
  - intros cls Hcls. apply create_class_trees_keys, Hfound. by apply Hinv.
  - intros Hin. destruct Hinv as (I1 & _).
    by destruct (I1 _ Hin) as (? & ? & _ & _ & ? & _).
Qed.

Lemma second_pass_checks_parents_witness :
  second_pass diamond_model diamond_trees diamond_after_first_pass
  = (Return tt,
     written_to diamond_after_first_pass
       [Signature 3%positive (Some "P") ["R1"; "Q"]; Pass]).
Proof.
  destruct (second_pass_checks_parents diamond_model diamond_trees
              diamond_after_first_pass) as [Hrun _].
  - apply Forall_forall. apply (bool_decide_unpack _). vm_compute. exact I.
  - apply (bool_decide_unpack _). vm_compute. exact I.
  - rewrite Hrun. vm_compute. reflexivity.
Defined.



(** * Further properties of the module *)

(** ** What the search returns *)

Section SearchResult.
Variable trees : Dict.t (list Class).

Lemma bfs_loop_NoDup fuel explored queue found :
  NoDup explored →
  bfs_loop fuel trees explored queue = Some found → NoDup found.
Proof.
  revert explored queue. induction fuel as [|fuel IH]; intros explored queue Hnd Hrun.
  - destruct queue; simpl in Hrun; [|done]. by injection Hrun as <-.
  - destruct queue as [|node queue]; simpl in Hrun.
    { by injection Hrun as <-. }
    case_decide as Hin; [by eapply IH|].
    eapply IH; [|done]. apply NoDup_app. repeat split; [done | | apply NoDup_singleton].
    intros x Hx ->%list_elem_of_singleton. done.
Qed.

(** What is explored or queued ends up in the result, and the result is
    closed under [neighbors_of] once every explored node has its
    neighbours explored or queued. *)
Lemma bfs_loop_closed fuel explored queue found :
  (∀ node x, node ∈ explored → x ∈ neighbors_of trees node →
             x ∈ explored ∨ x ∈ queue) →
  bfs_loop fuel trees explored queue = Some found →
  (∀ x, x ∈ explored ∨ x ∈ queue → x ∈ found) ∧
  (∀ node x, node ∈ found → x ∈ neighbors_of trees node → x ∈ found).
Proof.
  revert explored queue. induction fuel as [|fuel IH]; intros explored queue Hinv Hrun.
  - destruct queue; simpl in Hrun; [|done]. injection Hrun as <-. split.
    + intros x [? | ?%elem_of_nil]; done.
    + intros node x Hnode Hx. destruct (Hinv node x Hnode Hx) as [? | ?%elem_of_nil]; done.
  - destruct queue as [|node queue]; simpl in Hrun.
    { injection Hrun as <-. split.
      + intros x [? | ?%elem_of_nil]; done.
      + intros n x Hn Hx. destruct (Hinv n x Hn Hx) as [? | ?%elem_of_nil]; done. }
    case_decide as Hin.
    + destruct (IH explored queue) as [Hall Hclosed]; [|done|].
      { intros n x Hn Hx. destruct (Hinv n x Hn Hx) as [? | [-> | ?]%elem_of_cons]; auto. }
      split; [|done]. intros x [? | [-> | ?]%elem_of_cons]; auto.
    + destruct (IH (explored ++ [node]) (queue ++ neighbors_of trees node))
        as [Hall Hclosed]; [|done|].
      { intros n x [Hn | ->%list_elem_of_singleton]%elem_of_app Hx.
        - destruct (Hinv n x Hn Hx) as [? | [-> | ?]%elem_of_cons]; set_solver.
        - set_solver. }
      split; [|done]. intros x [? | [-> | ?]%elem_of_cons]; apply Hall; set_solver.
Qed.

(** Every explored node is a root node or comes after one of its parents,
    as long as that holds of what is explored and queued so far. *)
Lemma bfs_loop_ordered (root_nodes : list Class) fuel explored queue found :
  (∀ pre x post, explored = pre ++ x :: post →
     x ∈ root_nodes ∨ ∃ p parents, p ∈ pre ∧ (x, parents) ∈ trees ∧ p ∈ parents) →
  (∀ x, x ∈ queue →
     x ∈ root_nodes ∨ ∃ p parents, p ∈ explored ∧ (x, parents) ∈ trees ∧ p ∈ parents) →
  bfs_loop fuel trees explored queue = Some found →
  ∀ pre x post, found = pre ++ x :: post →
    x ∈ root_nodes ∨ ∃ p parents, p ∈ pre ∧ (x, parents) ∈ trees ∧ p ∈ parents.
Proof.
  revert explored queue. induction fuel as [|fuel IH]; intros explored queue Hexp Hq Hrun.
  - destruct queue; simpl in Hrun; [|done]. by injection Hrun as <-.
  - destruct queue as [|node queue]; simpl in Hrun.
    { by injection Hrun as <-. }
    case_decide as Hin.
    + apply (IH explored queue); [done | | done]. intros x Hx. apply Hq. by right.
    + apply (IH (explored ++ [node]) (queue ++ neighbors_of trees node)); [| | done].
      * intros pre x post Heq.
        destruct post as [|y post _] using rev_ind.
        -- change (explored ++ [node] = pre ++ [x]) in Heq.
           apply app_inj_tail in Heq as [-> ->]. apply Hq. left.
        -- rewrite app_comm_cons, app_assoc in Heq.
           apply app_inj_tail in Heq as [-> ->]. by apply (Hexp pre x post).
      * intros x [Hx | Hx]%elem_of_app.
        -- destruct (Hq x) as [? | (p & parents & ? & ? & ?)]; [by right | by left |].
           right. exists p, parents. set_solver.
        -- right. apply neighbors_of_parent in Hx as (parents & ? & ?).
           exists node, parents. set_solver.
Qed.
End SearchResult.

(** X1: [breadth_first_search] returns, and no class occurs twice in the
    list it returns, also when a root node is listed twice or a class is
    reached along several parents. *)
Theorem breadth_first_search_NoDup (trees : Dict.t (list Class))
    (root_nodes : list Class) :
  ∃ found, breadth_first_search trees root_nodes = Some found ∧ NoDup found.
Proof.
  destruct (breadth_first_search_total trees root_nodes) as [found Hrun].
  exists found. split; [done|]. eapply bfs_loop_NoDup; [|exact Hrun]. constructor.
Qed.

(** X2: the search misses nothing it can reach: every root node is in
    the result, and with a class the result holds every key of the tree
    whose parent list has that class. *)
Theorem breadth_first_search_complete (trees : Dict.t (list Class))
    (root_nodes : list Class) :
  ∃ found,
    breadth_first_search trees root_nodes = Some found ∧
    (∀ root, root ∈ root_nodes → root ∈ found) ∧
    (∀ node cls parents,
       node ∈ found → (cls, parents) ∈ trees → node ∈ parents → cls ∈ found).
Proof.
  destruct (breadth_first_search_total trees root_nodes) as [found Hrun].
  exists found. split; [done|].
  destruct (bfs_loop_closed trees (bfs_measure trees [] root_nodes) [] root_nodes found)
    as [Hall Hclosed]; [|exact Hrun|].
  { intros node x []%elem_of_nil. }
  split; [auto|].
  intros node cls parents Hnode Hcls Hin. apply (Hclosed node); [done|].
  unfold neighbors_of. apply list_elem_of_fmap. exists (cls, parents).
  split; [done|]. apply list_elem_of_filter. done.
Qed.

(** X3: the search returns only what it can reach, parents first: every
    class of the result is a root node or is a key of the tree with a parent
    that stands earlier in the result. *)
Theorem breadth_first_search_parent_first (trees : Dict.t (list Class))
    (root_nodes : list Class) :
  ∃ found,
    breadth_first_search trees root_nodes = Some found ∧
    ∀ pre cls post, found = pre ++ cls :: post →
      cls ∈ root_nodes ∨
      ∃ parent parents, parent ∈ pre ∧ (cls, parents) ∈ trees ∧ parent ∈ parents.
Proof.
  destruct (breadth_first_search_total trees root_nodes) as [found Hrun].
  exists found. split; [done|].
  apply (bfs_loop_ordered trees root_nodes (bfs_measure trees [] root_nodes) []
           root_nodes found); [| |exact Hrun].
  - intros [|? ?] ? ? Heq; discriminate Heq.
  - auto.
Qed.

(** ** The graph, its references and its roots *)

(** X4: the referenced classes are exactly the classes that occur in a
    parent list of the tree built from the same classes: generalization
    targets and extension targets alike. *)
Theorem create_referenced_parents (m : ElementFactory) (classes : list Class)
    (x : Class) :
  x ∈ create_referenced m classes ↔
  ∃ cls parents, (cls, parents) ∈ create_class_trees m classes ∧ x ∈ parents.
Proof.
  rewrite create_referenced_elem. split.
  - intros (cls & Hcls & Hx). exists cls, (parent_list m cls). split; [|done].
    apply getitem_elem. by apply create_class_trees_getitem.
  - intros (cls & parents & Helem & Hx).
    apply create_class_trees_elem in Helem as [Hcls ->]. eauto.
Qed.

(** X5: the root nodes found for a list of classes are the classes of
    the list that have no parent and are a parent of some class of the list;
    no root node is listed twice. *)
Theorem find_root_nodes_of_model (m : ElementFactory) (classes : list Class) :
  let root_nodes :=
    find_root_nodes (create_class_trees m classes) (create_referenced m classes) in
  NoDup root_nodes ∧
  ∀ x, x ∈ root_nodes ↔
       x ∈ classes ∧ general m x = [] ∧ get_class_extensions m x = []
       ∧ ∃ cls, cls ∈ classes ∧ (x ∈ general m cls ∨ x ∈ get_class_extensions m cls).
Proof.
  simpl. split.
  - unfold find_root_nodes.
    apply (NoDup_fmap_fst (filter _ (create_class_trees m classes))).
    + intros k v1 v2 [_ H1]%list_elem_of_filter [_ H2]%list_elem_of_filter.
      apply create_class_trees_elem in H1 as [_ ->].
      by apply create_class_trees_elem in H2 as [_ ->].
    + apply NoDup_filter.
      pose proof (create_class_trees_NoDup m classes) as Hnd.
      unfold Dict.keys in Hnd. by apply NoDup_fmap_1 in Hnd.
  - intros x. rewrite find_root_nodes_elem, create_referenced_elem. split.
    + intros [Helem (cls & Hcls & Hx)].
      apply create_class_trees_elem in Helem as [Hin Hnil].
      symmetry in Hnil. unfold parent_list in Hnil, Hx.
      apply app_eq_nil in Hnil as [? ?].
      repeat split; [done | done | done |].
      exists cls. split; [done|]. by apply elem_of_app.
    + intros (Hin & Hgen & Hext & cls & Hcls & Hx). split.
      * apply getitem_elem. rewrite create_class_trees_getitem by done.
        unfold parent_list. by rewrite Hgen, Hext.
      * exists cls. split; [done|]. unfold parent_list. by apply elem_of_app.
Qed.

(** ** More on the attribute type mapper *)

Lemma endswith_nil suffix : Str.endswith "" suffix = String.eqb "" suffix.
Proof. unfold Str.endswith. apply orb_false_r. Qed.

Lemma endswith_cons c s suffix :
  Str.endswith (String c s) suffix
  = String.eqb (String c s) suffix || Str.endswith s suffix.
Proof. reflexivity. Qed.

Lemma endswith_lower s suffix :
  Str.endswith s suffix = true →
  Str.endswith (Str.lower s) (Str.lower suffix) = true.
Proof.
  induction s as [|c s IH].
  - rewrite endswith_nil. intros <-%String.eqb_eq. reflexivity.
  - rewrite endswith_cons. intros [<-%String.eqb_eq | Htail]%orb_true_iff.
    + change (Str.lower (String c s)) with (String (Str.lower_ascii c) (Str.lower s)).
      rewrite endswith_cons, String.eqb_refl. reflexivity.
    + change (Str.lower (String c s)) with (String (Str.lower_ascii c) (Str.lower s)).
      rewrite endswith_cons, (IH Htail). apply orb_true_r.
Qed.

(** No spelling of a primitive name ends in [Kind] or [Sort]. *)
Lemma primitive_name_no_marker s :
  primitive_name (Str.lower s) = true →
  Str.endswith s "Kind" = false ∧ Str.endswith s "Sort" = false.
Proof.
  intros Hprim.
  assert (∀ marker, Str.endswith (Str.lower s) (Str.lower marker) = false →
                    Str.endswith s marker = false) as Hno.
  { intros marker Hlow. destruct (Str.endswith s marker) eqn:Hend; [|done].
    apply endswith_lower in Hend. congruence. }
  unfold primitive_name, Str.in_tuple in Hprim. simpl in Hprim.
  rewrite !orb_true_iff in Hprim.
  destruct Hprim as [Heq | [Heq | [Heq | [Heq | Heq]]]]; try discriminate Heq;
    apply String.eqb_eq in Heq; split; apply Hno; by rewrite Heq.
Qed.

(** X6: a type name that ends in [Kind] or [Sort] always gives no type:
    the rules for the primitive names, which come first, never take such a
    name. *)
Theorem type_converter_enumeration (a : Property.t) (s : string) :
  Property.typeValue a = Some s →
  Str.endswith s "Kind" = true ∨ Str.endswith s "Sort" = true →
  type_converter a = None.
Proof.
  intros Ha Hmarker. unfold type_converter. rewrite Ha.
  destruct (primitive_name (Str.lower s)) eqn:Hprim.
  - apply primitive_name_no_marker in Hprim as [? ?].
    destruct Hmarker; congruence.
  - destruct (not_primitive_name _ Hprim) as (-> & -> & ->).
    by destruct Hmarker as [-> | ->]; rewrite ?orb_true_r.
Qed.

Lemma type_converter_enumeration_witness :
  type_converter (typed (Some "ColorSort")) = None.
Proof.
  apply (type_converter_enumeration _ "ColorSort"); [reflexivity|].
  right. reflexivity.
Defined.

(** X7: converting a converted type changes nothing: the tokens [int]
    and [str] and a name passed through are themselves passed through, and
    no type stays no type. *)
Theorem type_converter_idempotent (a : Property.t) :
  type_converter (typed (type_converter a)) = type_converter a.
Proof.
  destruct (type_converter a) as [t|] eqn:Hconv; [|reflexivity].
  unfold type_converter in Hconv.
  destruct (Property.typeValue a) as [s|]; [|done].
  destruct (String.eqb (Str.lower s) "boolean") eqn:Hb.
  { injection Hconv as <-. reflexivity. }
  destruct (Str.in_tuple (Str.lower s) ["integer"; "unlimitednatural"]) eqn:Hi.
  { injection Hconv as <-. reflexivity. }
  destruct (String.eqb (Str.lower s) "string") eqn:Hs.
  { injection Hconv as <-. reflexivity. }
  destruct (Str.endswith s "Kind" || Str.endswith s "Sort") eqn:Hmarker; [done|].
  injection Hconv as <-. unfold type_converter.
  change (Property.typeValue (typed (Some s))) with (Some s). cbv beta iota.
  by rewrite Hb, Hi, Hs, Hmarker.
Qed.

(** ** Writing one class, in every case *)

(** X8: [write_attributes] always returns and only appends to the file.
    It never leaves a class body empty: the [pass] line stands exactly when
    the class has no attribute without association, no operation, and no
    association attribute with a name other than [baseClass]. A relation
    line is never written for an attribute that is unnamed or named
    [baseClass]. *)
Theorem write_attributes_body (m : ElementFactory) (cls : Class) (st : Locals.t) :
  ∃ lines,
    write_attributes m cls st = (Return tt, written_to st lines) ∧
    lines ≠ [] ∧
    Forall body_line lines ∧
    (Pass ∈ lines ↔
       without_association m cls = [] ∧
       ownedOperation m cls = [] ∧
       ∀ a, a ∈ with_association m cls →
            truthy (Property.name a) = false ∨ Property.name a = Some "baseClass") ∧
    (∀ a_name type_value,
       Relation a_name type_value ∈ lines →
       truthy a_name = true ∧ a_name ≠ Some "baseClass").
Proof.
  exists (class_body m cls). split; [apply write_attributes_spec|].
  split; [|split; [apply class_body_lines|]].
  { unfold class_body. by case_decide. }
  unfold class_body.
  set (attributes := _ <$> without_association m cls).
  set (relations := _ <$> filter _ (with_association m cls)).
  set (operations := Operation <$> ownedOperation m cls).
  assert (∀ a_name type_value,
            Relation a_name type_value ∈ attributes ++ relations ++ operations →
            truthy a_name = true ∧ a_name ≠ Some "baseClass") as Hrel.
  { unfold attributes, relations, operations.
    intros a_name type_value [Hin | [Hin | Hin]%elem_of_app]%elem_of_app.
    - by apply list_elem_of_fmap in Hin as (? & [=] & _).
    - apply list_elem_of_fmap in Hin as (a & [= -> ->] & Ha).
      apply list_elem_of_filter in Ha as [[Htruthy ?] _]. split; [|done].
      by destruct (truthy (Property.name a)).
    - by apply list_elem_of_fmap in Hin as (? & [=] & _). }
  assert (Pass ∉ attributes ++ relations ++ operations) as Hpass.
  { unfold attributes, relations, operations.
    intros [Hin | [Hin | Hin]%elem_of_app]%elem_of_app;
      by apply list_elem_of_fmap in Hin as (? & [=] & _). }
  case_decide as Hlines.
  - split.
    + split; [intros _ | intros _; left].
      apply app_eq_nil in Hlines as [Hattr [Hrels Hops]%app_eq_nil].
      apply fmap_nil_inv in Hattr. apply fmap_nil_inv in Hrels.
      apply fmap_nil_inv in Hops. repeat split; [done | done |].
      intros a Ha.
      destruct (truthy (Property.name a)) eqn:Htruthy; [|by left].
      destruct (decide (Property.name a = Some "baseClass")) as [|Hne]; [by right|].
      exfalso. apply (filter_nil_not_elem_of _ _ a Hrels); [|done].
      split; [by rewrite Htruthy | done].
    + by intros ? ? [[=] | ?%elem_of_nil]%elem_of_cons.
  - split; [|exact Hrel]. split; [done|].
    intros (Hattr & Hops & Hnone). exfalso. apply Hlines.
    unfold attributes, relations, operations. rewrite Hattr, Hops.
    assert (filter (λ a, truthy (Property.name a) ∧ Property.name a ≠ Some "baseClass")
                   (with_association m cls) = []) as ->; [|done].
    apply elem_of_nil_inv. intros a [[Htruthy Hne] Ha]%list_elem_of_filter.
    destruct (Hnone a Ha) as [Hfalse | ?]; [|done].
    by rewrite Hfalse in Htruthy.
Qed.

(** X9: [write_class_signature] is all or nothing. A class that is not a
    key of the tree raises [KeyError]; a failed parent check returns
    [False]; a parent without a name that passes the check raises
    [TypeError]; in these three cases nothing is written. Otherwise the
    signature and the whole body are written and the result is [True].
    The written set and the deferred list are never changed. *)
Theorem write_class_signature_all_or_nothing (m : ElementFactory)
    (trees : Dict.t (list Class)) (cls : Class) (st : Locals.t) :
  (Dict.getitem cls trees = None ∧
   write_class_signature m trees cls st = (Raise KeyError, st)) ∨
  ∃ parents,
    Dict.getitem cls trees = Some parents ∧
    ((¬ satisfied m (Locals.cls_written st) parents ∧
      write_class_signature m trees cls st = (Return false, st)) ∨
     (satisfied m (Locals.cls_written st) parents ∧
      None ∈ name m <$> parents ∧
      write_class_signature m trees cls st = (Raise TypeError, st)) ∨
     (satisfied m (Locals.cls_written st) parents ∧
      None ∉ name m <$> parents ∧
      write_class_signature m trees cls st
      = (Return true,
         written_to st (Signature cls (name m cls) (omap (name m) parents)
                          :: class_body m cls)))).
Proof.
  unfold write_class_signature.
  destruct (Dict.getitem cls trees) as [parents|]; [right | by left].
  exists parents. split; [done|].
  erewrite bind_Return by reflexivity.
  destruct parents as [|p parents].
  - right. right. rewrite decide_False by (by intros ?).
    erewrite bind_Return by apply write_spec.
    erewrite bind_Return by apply write_attributes_spec.
    rewrite written_to_app. repeat split; [constructor | apply not_elem_of_nil].
  - rewrite decide_True by done. unfold satisfied. case_decide as Hsat; [right | by left].
    rewrite bind_run. unfold lift, str_list.
    destruct (mapM id (name m <$> p :: parents)) as [names|] eqn:Hnames.
    + right. erewrite bind_Return by apply write_spec.
      erewrite bind_Return by apply write_attributes_spec.
      rewrite written_to_app, (str_list_names _ _ _ Hnames).
      repeat split; [done|].
      intros (x & Hx & Hin)%list_elem_of_fmap.
      assert (is_Some (mapM id (name m <$> p :: parents))) as Hsome by eauto.
      apply mapM_is_Some in Hsome. rewrite Forall_fmap, Forall_forall in Hsome.
      destruct (Hsome _ Hin) as [? Heq]. simpl in Heq. congruence.
    + left. repeat split; [done|].
      apply mapM_None in Hnames. apply Exists_exists in Hnames as (n & Hn & Heq).
      simpl in Heq. by subst.
Qed.

(** ** Class names without a first character *)

Lemma drop_tilde_first_unusable (m : ElementFactory) (pre post : list Class)
    (cls : Class) :
  (∀ c, c ∈ pre → truthy (name m c) = true) →
  truthy (name m cls) = false →
  drop_tilde m (pre ++ cls :: post)
  = Raise (match name m cls with None => TypeError | Some _ => IndexError end).
Proof.
  intros Hpre Hcls. induction pre as [|c pre IH]; simpl.
  - destruct (name m cls) as [[|? ?]|]; done.
  - pose proof (Hpre c ltac:(left)) as Hc.
    destruct (name m c) as [[|? ?]|]; try done. simpl.
    rewrite IH; [done|]. intros c' Hc'. apply Hpre. by right.
Qed.

(** X10: [generate] stops at the first class, in the order of the
    element factory, whose name has no first character: with [TypeError]
    when the name is absent, with [IndexError] when it is empty. By then
    the destination has been opened and holds the header only. *)
Theorem generate_first_unusable_name (uml_directory : list string)
    (m : ElementFactory) (outfile : option string) (pre post : list Class)
    (cls : Class) :
  lselect_Class m = pre ++ cls :: post →
  (∀ c, c ∈ pre → truthy (name m c) = true) →
  truthy (name m cls) = false →
  generate uml_directory (inr m) outfile
  = (Raise (match name m cls with None => TypeError | Some _ => IndexError end),
     Some header).
Proof.
  intros Hclasses Hpre Hcls. unfold generate.
  rewrite (generate_body_Raise uml_directory m
             (match name m cls with None => TypeError | Some _ => IndexError end)).
  - reflexivity.
  - rewrite Hclasses. by apply drop_tilde_first_unusable.
Qed.

Lemma generate_first_unusable_name_witness :
  generate [] (inr nameless_model) (Some "old text") = (Raise TypeError, Some header).
Proof.
  apply (generate_first_unusable_name [] nameless_model (Some "old text")
           [1%positive] [3%positive] 2%positive).
  - reflexivity.
  - intros c ->%list_elem_of_singleton. reflexivity.
  - reflexivity.
Defined.

(** ** The two passes in summary *)

Section Summary.
Variable m : ElementFactory.
Variable trees : Dict.t (list Class).

Lemma attempt_block written cls :
  attempt m trees written cls ≠ [] →
  attempt m trees written cls = block m trees cls.
Proof.
  unfold attempt, block. destruct (Dict.getitem cls trees); [|done].
  by case_decide.
Qed.

Lemma import_loop_run (uml_classes : list Class) st :
  for_each uml_classes (λ cls,
    write (Import (name m cls));; cls_written_add (name m cls)) st
  = (Return tt,
     {| Locals.f := Locals.f st ++ ((λ cls, Import (name m cls)) <$> uml_classes);
        Locals.cls_written :=
          list_to_set (name m <$> uml_classes) ∪ Locals.cls_written st;
        Locals.classes_deferred := Locals.classes_deferred st |}).
Proof.
  revert st. induction uml_classes as [|cls l IH]; intros st; simpl.
  - rewrite ?ret_run, app_nil_r, (left_id_L ∅ (∪)). by destruct st.
  - erewrite bind_Return by reflexivity. rewrite IH. simpl.
    f_equal. f_equal; [by rewrite <- app_assoc | set_solver].
Qed.

Lemma first_pass_run classes_found st emitted written deferred :
  (∀ cls, cls ∈ classes_found → cls ∈ Dict.keys trees ∧ name m cls ≠ None) →
  None ∉ Locals.cls_written st →
  first_pass_result m trees (Locals.cls_written st) classes_found
    = (emitted, written, deferred) →
  first_pass m trees classes_found st
  = (Return tt,
     {| Locals.f := Locals.f st ++ flat_map (block m trees) emitted;
        Locals.cls_written := written;
        Locals.classes_deferred := Locals.classes_deferred st ++ deferred |}).
Proof.
  unfold first_pass. revert st emitted written deferred.
  induction classes_found as [|cls l IH]; intros st emitted written deferred Hfound Hnone.
  { intros [= <- <- <-]. cbn [for_each flat_map]. rewrite ret_run, !app_nil_r. by destruct st. }
  destruct (Hfound cls ltac:(left)) as [Hkey Hname].
  assert (∀ c, c ∈ l → c ∈ Dict.keys trees ∧ name m c ≠ None) as Hrest
    by (intros c Hc; apply Hfound; by right).
  cbn [for_each first_pass_result].
  rewrite bind_run. erewrite bind_Return by reflexivity.
  destruct (decide (name m cls ∈ Locals.cls_written st)) as [Hin | Hnin].
  - rewrite decide_False by (by intros ?). rewrite ret_run. by apply IH.
  - rewrite decide_True by done.
    destruct (write_class_signature_attempt m trees cls st Hkey Hnone)
      as (w & Hrun & Hw).
    erewrite bind_Return by apply Hrun.
    destruct (attempt m trees (Locals.cls_written st) cls) as [|l0 lines] eqn:Hattempt.
    + destruct w; [by destruct Hw as [Hw _]; specialize (Hw eq_refl)|].
      destruct (first_pass_result m trees (Locals.cls_written st) l)
        as [[e' w'] d'] eqn:Hres.
      intros [= <- <- <-]. unfold classes_deferred_append. cbv beta iota.
      rewrite (IH _ e' w' d'); [|done|done|done]. simpl.
      by rewrite app_nil_r, <- app_assoc.
    + destruct w; [|by destruct Hw as [_ Hw]; discriminate Hw].
      destruct (first_pass_result m trees ({[name m cls]} ∪ Locals.cls_written st) l)
        as [[e' w'] d'] eqn:Hres.
      intros [= <- <- <-]. unfold cls_written_add. cbv beta iota.
      rewrite (IH _ e' w' d'); [|done| |done].
      * assert (block m trees cls = l0 :: lines) as Hblock.
        { rewrite <- Hattempt. symmetry. apply attempt_block. by rewrite Hattempt. }
        cbn [flat_map Locals.f Locals.classes_deferred written_to].
        by rewrite Hblock, <- app_assoc.
      * simpl. set_solver.
Qed.

(** Facts on the summary of the first loop. *)
Lemma first_pass_result_facts classes_found written0 emitted written deferred :
  first_pass_result m trees written0 classes_found = (emitted, written, deferred) →
  written = list_to_set (name m <$> emitted) ∪ written0 ∧
  sublist emitted classes_found ∧
  sublist deferred classes_found ∧
  (∀ cls, cls ∈ emitted ∨ cls ∈ deferred → name m cls ∉ written0) ∧
  (NoDup classes_found → ∀ cls, cls ∈ emitted → cls ∉ deferred) ∧
  (∀ cls, cls ∈ classes_found → name m cls ∈ written ∨ cls ∈ deferred) ∧
  (∀ cls, cls ∈ deferred → Dict.getitem cls trees ≠ Some []) ∧
  (∀ cls, cls ∈ emitted → ∃ parents, Dict.getitem cls trees = Some parents).
Proof.
  revert written0 emitted written deferred.
  induction classes_found as [|cls l IH]; intros written0 emitted written deferred;
    cbn [first_pass_result].
  { intros [= <- <- <-]. split; [set_solver|]. split; [constructor|].
    split; [constructor|]. repeat split; set_solver. }
  case_decide as Hin.
  - intros Hres. destruct (IH _ _ _ _ Hres) as (H1 & H2 & H3 & H4 & H5 & H6 & H7 & H8).
    split; [done|]. split; [by apply sublist_cons|]. split; [by apply sublist_cons|].
    split; [done|]. split; [|split; [|done]].
    + intros [_ Hnd]%NoDup_cons. by apply H5.
    + intros c [-> | Hc]%elem_of_cons; [left; rewrite H1; set_solver | by apply H6].
  - destruct (attempt m trees written0 cls) as [|l0 lines] eqn:Hattempt.
    + destruct (first_pass_result m trees written0 l) as [[e' w'] d'] eqn:Hres.
      intros [= <- <- <-].
      destruct (IH _ _ _ _ Hres) as (H1 & H2 & H3 & H4 & H5 & H6 & H7 & H8).
      split; [done|]. split; [by apply sublist_cons|]. split; [by apply sublist_skip|].
      split; [|split; [|split; [|split; [|done]]]].
      * intros c [Hc | [-> | Hc]%elem_of_cons]; auto.
      * intros [Hnew Hnd]%NoDup_cons c He [-> | Hd]%elem_of_cons.
        -- apply Hnew. by apply (sublist_subseteq _ _ H2).
        -- by apply (H5 Hnd c).
      * intros c [-> | Hc]%elem_of_cons; [right; left|].
        destruct (H6 c Hc); [by left | right; by right].
      * intros c [-> | Hc]%elem_of_cons; [|by apply H7].
        intros Hget. unfold attempt in Hattempt. rewrite Hget in Hattempt.
        rewrite decide_True in Hattempt by constructor. done.
    + destruct (first_pass_result m trees ({[name m cls]} ∪ written0) l)
        as [[e' w'] d'] eqn:Hres.
      intros [= <- <- <-].
      destruct (IH _ _ _ _ Hres) as (H1 & H2 & H3 & H4 & H5 & H6 & H7 & H8).
      split; [rewrite H1; set_solver|].
      split; [by apply sublist_skip|]. split; [by apply sublist_cons|].
      split; [|split; [|split; [|split; [done|]]]].
      * intros c [[-> | Hc]%elem_of_cons | Hc]; [done | |];
          (intros Hbad; apply (H4 c); [auto | set_solver]).
      * intros [Hnew Hnd]%NoDup_cons c [-> | He]%elem_of_cons Hd.
        -- apply Hnew. by apply (sublist_subseteq _ _ H3).
        -- by apply (H5 Hnd c).
      * intros c [-> | Hc]%elem_of_cons; [left; rewrite H1; set_solver | by apply H6].
      * intros c [-> | Hc]%elem_of_cons; [|by apply H8].
        unfold attempt in Hattempt.
        destruct (Dict.getitem cls trees) as [parents|]; [eauto | done].
Qed.
End Summary.

(** ** The whole file *)

Section Exact.
Variable uml_directory : list string.
Variable m : ElementFactory.

(** The final state of [generate] when no class name makes it raise. *)
Lemma generate_body_exact classes found emitted written deferred :
  drop_tilde m (lselect_Class m) = Return classes →
  breadth_first_search (create_class_trees m classes)
    (find_root_nodes (create_class_trees m classes) (create_referenced m classes))
  = Some found →
  first_pass_result m (create_class_trees m classes)
    (list_to_set (name m <$> filter_uml_classes uml_directory m classes)) found
  = (emitted, written, deferred) →
  generate_body uml_directory m Locals.init
  = (Return tt,
     {| Locals.f :=
          ([Header] ++ ((λ cls, Import (name m cls))
                          <$> filter_uml_classes uml_directory m classes)
           ++ flat_map (block m (create_class_trees m classes)) emitted)
          ++ flat_map (attempt m (create_class_trees m classes) written) deferred;
        Locals.cls_written := written;
        Locals.classes_deferred := deferred |}).
Proof.
  intros Hdrop Hsearch Hres.
  destruct (drop_tilde_Return _ _ _ Hdrop) as [Hnamed Hkept].
  assert (∀ cls, cls ∈ found →
                 cls ∈ Dict.keys (create_class_trees m classes) ∧ name m cls ≠ None)
    as Hfound.
  { intros cls Hcls.
    pose proof (breadth_first_search_keys _ _ _ _ Hsearch Hcls) as Hkey.
    split; [done|]. apply create_class_trees_keys in Hkey.
    rewrite Hkept in Hkey. apply list_elem_of_filter in Hkey as [_ Hkey].
    apply Hnamed in Hkey. by destruct (name m cls). }
  assert (None ∉ (list_to_set (name m <$> filter_uml_classes uml_directory m classes)
                  : gset (option string))) as Hnone.
  { rewrite elem_of_list_to_set. intros (cls & Hname & Hcls)%list_elem_of_fmap.
    apply list_elem_of_filter in Hcls as [Huml _].
    unfold in_uml_directory in Huml. by rewrite <- Hname in Huml. }
  destruct (first_pass_result_facts m _ _ _ _ _ _ Hres) as (Hw & He & Hd & _).
  unfold generate_body.
  erewrite bind_Return by apply write_spec.
  erewrite bind_Return by (unfold lift; by rewrite Hdrop).
  erewrite bind_Return by apply import_loop_run.
  rewrite Hsearch. erewrite bind_Return by reflexivity.
  erewrite bind_Return.
  2:{ apply (first_pass_run m _ found _ emitted written deferred); [done | |].
      - cbn [Locals.cls_written written_to Locals.init].
        by rewrite (right_id_L ∅ (∪)).
      - cbn [Locals.cls_written written_to Locals.init].
        by rewrite (right_id_L ∅ (∪)). }
  unfold second_pass. erewrite bind_Return by reflexivity.
  cbn [Locals.classes_deferred written_to Locals.init app].
  rewrite second_pass_loop.
  - unfold written_to. cbn [Locals.f Locals.cls_written Locals.classes_deferred app].
    by rewrite <- !app_assoc.
  - intros cls Hcls. cbn [Locals.classes_deferred] in Hcls.
    by apply Hfound, (sublist_subseteq _ _ Hd).
  - cbn [Locals.cls_written]. rewrite Hw, elem_of_union, elem_of_list_to_set.
    intros [(cls & Hname & Hcls)%list_elem_of_fmap | ?]; [|done].
    by destruct (Hfound cls (sublist_subseteq _ _ He _ Hcls)) as [_ ?].
Qed.

(** The file as a header, the imports, and one complete definition for
    each of a duplicate-free list of classes. *)
Lemma output_blocks classes :
  drop_tilde m (lselect_Class m) = Return classes →
  ∃ emitted,
    NoDup emitted ∧
    (∀ cls, cls ∈ emitted →
            cls ∈ classes ∧
            name m cls ∉ name m <$> filter_uml_classes uml_directory m classes) ∧
    output uml_directory m
    = Header :: ((λ cls, Import (name m cls))
                   <$> filter_uml_classes uml_directory m classes)
             ++ flat_map (λ cls, class_block m cls (parent_list m cls)) emitted.
Proof.
  intros Hdrop.
  set (trees := create_class_trees m classes).
  destruct (breadth_first_search_total trees
              (find_root_nodes trees (create_referenced m classes))) as [found Hsearch].
  destruct (first_pass_result m trees
              (list_to_set (name m <$> filter_uml_classes uml_directory m classes)) found)
    as [[emitted written] deferred] eqn:Hres.
  destruct (first_pass_result_facts m _ _ _ _ _ _ Hres)
    as (Hw & He & Hd & Hnew & Hdisjoint & _).
  assert (NoDup found) as Hnd.
  { eapply bfs_loop_NoDup; [|exact Hsearch]. constructor. }
  assert (∀ cls, cls ∈ found → cls ∈ classes) as Hfound.
  { intros cls Hcls. apply (create_class_trees_keys m).
    by apply (breadth_first_search_keys _ _ _ _ Hsearch). }
  assert (∀ cls, cls ∈ found → block m trees cls = class_block m cls (parent_list m cls))
    as Hblock.
  { intros cls Hcls. unfold block, trees.
    by rewrite create_class_trees_getitem by auto. }
  set (retried := filter (λ cls, satisfied m written (parent_list m cls)) deferred).
  exists (emitted ++ retried). split; [|split].
  - apply NoDup_app. split; [by eapply sublist_NoDup|]. split.
    + intros cls Hcls [_ Hin]%list_elem_of_filter. by apply (Hdisjoint Hnd cls).
    + apply NoDup_filter. by eapply sublist_NoDup.
  - intros cls Hcls.
    assert (cls ∈ emitted ∨ cls ∈ deferred) as Hor.
    { apply elem_of_app in Hcls as [? | [_ ?]%list_elem_of_filter]; auto. }
    split.
    + apply Hfound. destruct Hor as [Hin | Hin];
        [exact (sublist_subseteq _ _ He _ Hin) | exact (sublist_subseteq _ _ Hd _ Hin)].
    + intros Hin. apply (Hnew cls Hor). by apply elem_of_list_to_set.
  - unfold output.
    rewrite (generate_body_exact classes found emitted written deferred Hdrop Hsearch Hres).
    cbn [snd Locals.f]. fold trees. rewrite <- !app_assoc. cbn [app]. do 2 f_equal.
    rewrite flat_map_app. f_equal.
    + assert (∀ cls, cls ∈ emitted → cls ∈ found) as Hsub
        by exact (sublist_subseteq _ _ He).
      clear -Hsub Hblock. induction emitted as [|cls l IH]; [done|]. cbn [flat_map].
      rewrite Hblock by (apply Hsub; left). f_equal. apply IH.
      intros c Hc. apply Hsub. by right.
    + assert (∀ cls, cls ∈ deferred → cls ∈ found) as Hsub
        by exact (sublist_subseteq _ _ Hd).
      unfold retried. clear -Hsub Hfound. induction deferred as [|cls l IH]; [done|].
      cbn [flat_map]. rewrite filter_cons.
      unfold attempt at 1. unfold trees.
      rewrite create_class_trees_getitem by (apply Hfound, Hsub; left).
      destruct (decide (satisfied m written (parent_list m cls))).
      * cbn [flat_map]. f_equal. apply IH. intros c Hc. apply Hsub. by right.
      * apply IH. intros c Hc. apply Hsub. by right.
Qed.
End Exact.

(** X11: on a model whose classes all have a non-empty name the file is
    the header, then one import line for each kept class whose name is in
    the UML directory, in model order, then complete class definitions
    only: signature and body of one class after the other. No class is
    defined twice, and no class with a name of the UML directory is defined. *)
Theorem output_layout (uml_directory : list string) (m : ElementFactory) :
  well_named m →
  ∃ emitted,
    NoDup emitted ∧
    (∀ cls, cls ∈ emitted →
            cls ∈ kept_classes m ∧ ¬ in_uml_directory uml_directory m cls) ∧
    output uml_directory m
    = Header :: ((λ cls, Import (name m cls))
                   <$> filter_uml_classes uml_directory m (kept_classes m))
             ++ flat_map (λ cls, class_block m cls (parent_list m cls)) emitted.
Proof.
  intros Hnamed.
  destruct (drop_tilde_total m (lselect_Class m) Hnamed) as [classes Hdrop].
  pose proof (drop_tilde_Return _ _ _ Hdrop) as [_ Hkept].
  destruct (output_blocks uml_directory m classes Hdrop) as (emitted & Hnd & Hin & Hout).
  fold (kept_classes m) in Hkept. subst classes.
  exists emitted. split; [done|]. split; [|done].
  intros cls Hcls. destruct (Hin cls Hcls) as [Hkept Hnew]. split; [done|].
  intros Huml. apply Hnew. apply list_elem_of_fmap_2.
  by apply list_elem_of_filter.
Qed.

Lemma output_layout_witness :
  ∃ emitted,
    NoDup emitted ∧
    (∀ cls, cls ∈ emitted →
            cls ∈ kept_classes chain_model ∧ ¬ in_uml_directory ["Element"] chain_model cls) ∧
    output ["Element"] chain_model
    = Header :: ((λ cls, Import (name chain_model cls))
                   <$> filter_uml_classes ["Element"] chain_model (kept_classes chain_model))
             ++ flat_map (λ cls, class_block chain_model cls (parent_list chain_model cls))
                         emitted.
Proof.
  apply (output_layout ["Element"] chain_model).
  intros cls Hcls.
  repeat (apply elem_of_cons in Hcls as [-> | Hcls]); try reflexivity.
  by apply elem_of_nil in Hcls.
Defined.

(** X12: a name that is imported is never also defined: when the file
    has a class signature for a name, it has no import line for that name. *)
Theorem imported_name_not_defined (uml_directory : list string) (m : ElementFactory)
    (cls : Class) (cls_name : option string) (base_classes : list string) :
  Signature cls cls_name base_classes ∈ output uml_directory m →
  Import cls_name ∉ output uml_directory m.
Proof.
  intros Hsig Himp.
  destruct (drop_tilde m (lselect_Class m)) as [classes|e|] eqn:Hdrop.
  - destruct (output_blocks uml_directory m classes Hdrop)
      as (emitted & _ & Hin & Hout).
    rewrite Hout in Hsig, Himp.
    assert (∀ l, l ∈ flat_map (λ c, class_block m c (parent_list m c)) emitted →
                 ∃ c, c ∈ emitted ∧
                      (l = Signature c (name m c) (omap (name m) (parent_list m c))
                       ∨ body_line l)) as Hblocks.
    { intros l Hl. apply list_elem_of_In, in_flat_map in Hl as (c & Hc & Hl).
      apply list_elem_of_In in Hc, Hl. exists c. split; [done|].
      unfold class_block in Hl. apply elem_of_cons in Hl as [-> | Hbody]; [by left|].
      right. pose proof (class_body_lines m c) as Hlines.
      rewrite Forall_forall in Hlines. auto. }
    apply elem_of_cons in Hsig as [[=] | [Hsig | Hsig]%elem_of_app];
      [by apply list_elem_of_fmap in Hsig as (? & [=] & _)|].
    apply elem_of_cons in Himp as [[=] | [Himp | Himp]%elem_of_app].
    + destruct (Hblocks _ Hsig) as (c & Hc & [[= -> -> ->] | []]).
      destruct (Hin c Hc) as [_ Hnew]. apply Hnew.
      apply list_elem_of_fmap in Himp as (c' & [= ->] & Hc').
      by apply list_elem_of_fmap_2.
    + by destruct (Hblocks _ Himp) as (c & _ & [[=] | []]).
  - rewrite (output_Raise _ _ _ Hdrop) in Hsig.
    by apply list_elem_of_singleton in Hsig.
  - by apply drop_tilde_finishes in Hdrop.
Qed.

Lemma imported_name_not_defined_witness :
  Import (Some "Y") ∉ output ["Element"] chain_model.
Proof.
  apply (imported_name_not_defined ["Element"] chain_model 2%positive (Some "Y")
           ["Element"]).
  rewrite (proj1 chain_output).
  do 2 apply list_elem_of_further. apply list_elem_of_here.
Defined.

(** X13: on a model whose classes all have a non-empty name, every class
    the search finds is accounted for when [generate] ends: its name is in
    the written set or the class is in the deferred list. A root node is
    never deferred, and the file has a line that imports or defines its
    name. *)
Theorem found_classes_accounted (uml_directory : list string) (m : ElementFactory) :
  well_named m →
  let trees := create_class_trees m (kept_classes m) in
  let root_nodes := find_root_nodes trees (create_referenced m (kept_classes m)) in
  let final := (generate_body uml_directory m Locals.init).2 in
  ∃ found,
    breadth_first_search trees root_nodes = Some found ∧
    (∀ cls, cls ∈ found →
            name m cls ∈ Locals.cls_written final ∨ cls ∈ Locals.classes_deferred final) ∧
    (∀ root, root ∈ root_nodes →
             root ∉ Locals.classes_deferred final ∧
             ∃ l s, name m root = Some s ∧ l ∈ output uml_directory m ∧ defines l s).
Proof.
  intros Hnamed. cbv zeta.
  destruct (drop_tilde_total m (lselect_Class m) Hnamed) as [classes Hdrop].
  pose proof (drop_tilde_Return _ _ _ Hdrop) as [_ Hkept].
  fold (kept_classes m) in Hkept. subst classes.
  set (trees := create_class_trees m (kept_classes m)).
  set (root_nodes := find_root_nodes trees (create_referenced m (kept_classes m))).
  destruct (generate_body_Return uml_directory m _ Hdrop)
    as (found & st & Hsearch & Hrun & Hinv).
  fold trees root_nodes in Hsearch.
  destruct (first_pass_result m trees
              (list_to_set (name m <$> filter_uml_classes uml_directory m (kept_classes m)))
              found) as [[emitted written] deferred] eqn:Hres.
  pose proof (generate_body_exact uml_directory m _ found emitted written deferred
                Hdrop Hsearch Hres) as Hexact.
  destruct (first_pass_result_facts m _ _ _ _ _ _ Hres)
    as (_ & _ & _ & _ & _ & Hall & Hparents & _).
  exists found. split; [done|]. rewrite Hexact. cbn [snd Locals.cls_written
    Locals.classes_deferred]. split; [exact Hall|].
  intros root Hroot.
  assert (root ∉ deferred) as Hnot.
  { intros Hin. apply (Hparents root Hin).
    apply find_root_nodes_elem in Hroot as [Helem _].
    apply elem_getitem; [apply create_class_trees_NoDup | done]. }
  split; [done|].
  assert (root ∈ found) as Hfound.
  { destruct (bfs_loop_closed trees (bfs_measure trees [] root_nodes) [] root_nodes found)
      as [Hin _]; [|exact Hsearch|auto].
    intros node x []%elem_of_nil. }
  destruct (Hall root Hfound) as [Hwritten | ?]; [|done].
  rewrite Hrun in Hexact. injection Hexact as Hst.
  destruct Hinv as (I1 & _). rewrite Hst in I1. cbn [Locals.cls_written Locals.f] in I1.
  destruct (I1 _ Hwritten) as (c & s & _ & _ & Hname & l & Hl & Hdef).
  exists l, s. split; [done|]. split; [|done].
  unfold output. rewrite Hrun, Hst. exact Hl.
Qed.

Lemma found_classes_accounted_witness :
  ∃ found,
    breadth_first_search (create_class_trees diamond_model (kept_classes diamond_model))
      (find_root_nodes (create_class_trees diamond_model (kept_classes diamond_model))
         (create_referenced diamond_model (kept_classes diamond_model)))
    = Some found ∧
    (∀ cls, cls ∈ found →
            name diamond_model cls
              ∈ Locals.cls_written (generate_body [] diamond_model Locals.init).2
            ∨ cls ∈ Locals.classes_deferred (generate_body [] diamond_model Locals.init).2) ∧
    (∀ root,
       root ∈ find_root_nodes
                (create_class_trees diamond_model (kept_classes diamond_model))
                (create_referenced diamond_model (kept_classes diamond_model)) →
       root ∉ Locals.classes_deferred (generate_body [] diamond_model Locals.init).2 ∧
       ∃ l s, name diamond_model root = Some s ∧ l ∈ output [] diamond_model
              ∧ defines l s).
Proof.
  apply (found_classes_accounted [] diamond_model).
  intros cls Hcls.
  repeat (apply elem_of_cons in Hcls as [-> | Hcls]); try reflexivity.
  by apply elem_of_nil in Hcls.
Defined.

(** ** When nothing is deferred *)

(** The first loop defers nothing when each class it meets has all its
    parents earlier in the list, or named in the written set already. *)
Lemma first_pass_result_no_deferred (m : ElementFactory) (trees : Dict.t (list Class))
    (classes_found : list Class) (written0 : gset (option string))
    (emitted : list Class) (written : gset (option string)) (deferred : list Class) :
  (∀ pre cls post, classes_found = pre ++ cls :: post →
     ∃ parents, Dict.getitem cls trees = Some parents ∧
                ∀ p, p ∈ parents → p ∈ pre ∨ name m p ∈ written0) →
  first_pass_result m trees written0 classes_found = (emitted, written, deferred) →
  deferred = [].
Proof.
  revert written0 emitted written deferred.
  induction classes_found as [|cls l IH]; intros written0 emitted written deferred Hord;
    cbn [first_pass_result].
  { by intros [= <- <- <-]. }
  destruct (Hord [] cls l eq_refl) as (parents & Hget & Hparents).
  assert (satisfied m written0 parents) as Hsat.
  { unfold satisfied. rewrite Forall_fmap, Forall_forall. intros p Hp.
    destruct (Hparents p Hp) as [[]%elem_of_nil | ?]. done. }
  assert (∀ extra : gset (option string),
            name m cls ∈ extra ∪ written0 →
            ∀ pre c post, l = pre ++ c :: post →
              ∃ parents', Dict.getitem c trees = Some parents' ∧
                          ∀ p, p ∈ parents' → p ∈ pre ∨ name m p ∈ extra ∪ written0)
    as Hrest.
  { intros extra Hcls pre c post ->.
    destruct (Hord (cls :: pre) c post eq_refl) as (parents' & Hget' & Hparents').
    exists parents'. split; [done|]. intros p Hp.
    destruct (Hparents' p Hp) as [[-> | ?]%elem_of_cons | ?]; [by right | by left |].
    right. set_solver. }
  case_decide as Hin.
  - apply IH. intros pre c post Heq.
    destruct (Hrest ∅ ltac:(set_solver) pre c post Heq) as (parents' & ? & Hp).
    exists parents'. split; [done|]. intros p Hpin.
    destruct (Hp p Hpin); [by left | right; set_solver].
  - unfold attempt. rewrite Hget, decide_True by done. unfold class_block.
    destruct (first_pass_result m trees ({[name m cls]} ∪ written0) l)
      as [[e' w'] d'] eqn:Hres.
    intros [= <- <- <-]. apply (IH _ _ _ _ (Hrest {[name m cls]} ltac:(set_solver)) Hres).
Qed.

(** X14: with single inheritance nothing is deferred. On a model whose
    classes all have a non-empty name and at most one parent each, the
    deferred list is empty when [generate] ends, and for every class the
    search finds the file has a line that imports or defines its name. *)
Theorem single_parent_nothing_deferred (uml_directory : list string)
    (m : ElementFactory) :
  well_named m →
  (∀ cls, cls ∈ kept_classes m → (length (parent_list m cls) ≤ 1)%nat) →
  let trees := create_class_trees m (kept_classes m) in
  let root_nodes := find_root_nodes trees (create_referenced m (kept_classes m)) in
  Locals.classes_deferred (generate_body uml_directory m Locals.init).2 = [] ∧
  ∃ found,
    breadth_first_search trees root_nodes = Some found ∧
    ∀ cls, cls ∈ found →
           ∃ l s, name m cls = Some s ∧ l ∈ output uml_directory m ∧ defines l s.
Proof.
  intros Hnamed Hsingle. cbv zeta.
  destruct (drop_tilde_total m (lselect_Class m) Hnamed) as [classes Hdrop].
  pose proof (drop_tilde_Return _ _ _ Hdrop) as [_ Hkept].
  fold (kept_classes m) in Hkept. subst classes.
  set (trees := create_class_trees m (kept_classes m)).
  set (root_nodes := find_root_nodes trees (create_referenced m (kept_classes m))).
  destruct (generate_body_Return uml_directory m _ Hdrop)
    as (found & st & Hsearch & Hrun & Hinv).
  fold trees root_nodes in Hsearch.
  destruct (first_pass_result m trees
              (list_to_set (name m <$> filter_uml_classes uml_directory m (kept_classes m)))
              found) as [[emitted written] deferred] eqn:Hres.
  pose proof (generate_body_exact uml_directory m _ found emitted written deferred
                Hdrop Hsearch Hres) as Hexact.
  destruct (first_pass_result_facts m _ _ _ _ _ _ Hres)
    as (_ & _ & _ & _ & _ & Hall & _).
  assert (deferred = []) as ->.
  { eapply (first_pass_result_no_deferred m trees found); [|exact Hres].
    intros pre cls post Hfound.
    destruct (bfs_loop_ordered trees root_nodes (bfs_measure trees [] root_nodes) []
                root_nodes found) with (pre := pre) (x := cls) (post := post)
      as [Hroot | (parent & parents & Hpre & Helem & Hin)]; try done.
    - intros [|? ?] ? ? Heq; discriminate Heq.
    - auto.
    - apply find_root_nodes_elem in Hroot as [Helem _].
      exists []. split; [|by intros ? ?%elem_of_nil].
      apply elem_getitem;
        [exact (create_class_trees_NoDup m (kept_classes m)) | exact Helem].
    - exists parents. split.
      { apply elem_getitem;
          [exact (create_class_trees_NoDup m (kept_classes m)) | exact Helem]. }
      apply create_class_trees_elem in Helem as [Hcls ->].
      specialize (Hsingle cls Hcls).
      destruct (parent_list m cls) as [|p [|? ?]]; simpl in Hsingle;
        [by apply elem_of_nil in Hin | | lia].
      apply list_elem_of_singleton in Hin as ->.
      intros p' ->%list_elem_of_singleton. by left. }
  rewrite Hexact. split; [done|]. exists found. split; [done|].
  intros cls Hcls. destruct (Hall cls Hcls) as [Hwritten | []%elem_of_nil].
  rewrite Hrun in Hexact. injection Hexact as Hst.
  destruct Hinv as (I1 & _). rewrite Hst in I1. cbn [Locals.cls_written Locals.f] in I1.
  destruct (I1 _ Hwritten) as (c & s & _ & _ & Hname & l & Hl & Hdef).
  exists l, s. split; [done|]. split; [|done].
  unfold output. rewrite Hrun, Hst. exact Hl.
Qed.

Lemma single_parent_nothing_deferred_witness :
  Locals.classes_deferred (generate_body ["Element"] chain_model Locals.init).2 = [] ∧
  ∃ found,
    breadth_first_search (create_class_trees chain_model (kept_classes chain_model))
      (find_root_nodes (create_class_trees chain_model (kept_classes chain_model))
         (create_referenced chain_model (kept_classes chain_model)))
    = Some found ∧
    ∀ cls, cls ∈ found →
           ∃ l s, name chain_model cls = Some s ∧ l ∈ output ["Element"] chain_model
                  ∧ defines l s.
Proof.
  apply (single_parent_nothing_deferred ["Element"] chain_model).
  - intros cls Hcls.
    repeat (apply elem_of_cons in Hcls as [-> | Hcls]); try reflexivity.
    by apply elem_of_nil in Hcls.
  - intros cls Hcls. vm_compute in Hcls.
    repeat (apply elem_of_cons in Hcls as [-> | Hcls]); try (vm_compute; lia).
    by apply elem_of_nil in Hcls.
Defined.

(** X15: without a root node nothing is defined. On a model whose
    classes all have a non-empty name and that has no root node (no class
    at all, no generalization or extension at all, or every class with a
    parent), the file is the header and the import lines and nothing else. *)
Theorem output_without_root_nodes (uml_directory : list string) (m : ElementFactory) :
  well_named m →
  find_root_nodes (create_class_trees m (kept_classes m))
                  (create_referenced m (kept_classes m)) = [] →
  output uml_directory m
  = Header :: ((λ cls, Import (name m cls))
                 <$> filter_uml_classes uml_directory m (kept_classes m)).
Proof.
  intros Hnamed Hroots.
  destruct (drop_tilde_total m (lselect_Class m) Hnamed) as [classes Hdrop].
  pose proof (drop_tilde_Return _ _ _ Hdrop) as [_ Hkept].
  fold (kept_classes m) in Hkept. subst classes.
  unfold output.
  rewrite (generate_body_exact uml_directory m (kept_classes m) [] []
             (list_to_set (name m <$> filter_uml_classes uml_directory m (kept_classes m)))
             [] Hdrop).
  - cbn [snd Locals.f flat_map app]. by rewrite !app_nil_r.
  - rewrite Hroots. apply breadth_first_search_no_root.
  - reflexivity.
Qed.

Lemma output_without_root_nodes_witness :
  output ["A"] flat_model
  = Header :: ((λ cls, Import (name flat_model cls))
                 <$> filter_uml_classes ["A"] flat_model (kept_classes flat_model)).
Proof.
  apply (output_without_root_nodes ["A"] flat_model).
  - intros cls Hcls.
    repeat (apply elem_of_cons in Hcls as [-> | Hcls]); try reflexivity.
    by apply elem_of_nil in Hcls.
  - vm_compute. reflexivity.
Defined.

(** X16: what becomes of a deferred class. On a model whose classes all
    have a non-empty name, a class that is in the deferred list when
    [generate] ends has a signature in the file exactly when every name of
    its parent list is in the written set at the end; otherwise the class
    is missing from the file. *)
Theorem deferred_class_defined_iff (uml_directory : list string) (m : ElementFactory)
    (cls : Class) :
  well_named m →
  cls ∈ Locals.classes_deferred (generate_body uml_directory m Locals.init).2 →
  (∃ cls_name base_classes,
     Signature cls cls_name base_classes ∈ output uml_directory m) ↔
  satisfied m (Locals.cls_written (generate_body uml_directory m Locals.init).2)
            (parent_list m cls).
Proof.
  intros Hnamed.
  destruct (drop_tilde_total m (lselect_Class m) Hnamed) as [classes Hdrop].
  set (trees := create_class_trees m classes).
  destruct (breadth_first_search_total trees
              (find_root_nodes trees (create_referenced m classes))) as [found Hsearch].
  destruct (first_pass_result m trees
              (list_to_set (name m <$> filter_uml_classes uml_directory m classes)) found)
    as [[emitted written] deferred] eqn:Hres.
  destruct (first_pass_result_facts m _ _ _ _ _ _ Hres)
    as (_ & He & Hd & _ & Hdisjoint & _).
  assert (NoDup found) as Hnd.
  { eapply bfs_loop_NoDup; [|exact Hsearch]. constructor. }
  assert (∀ c, c ∈ found → Dict.getitem c trees = Some (parent_list m c)) as Hget.
  { intros c Hc. apply create_class_trees_getitem, (create_class_trees_keys m).
    by apply (breadth_first_search_keys _ _ _ _ Hsearch). }
  unfold output.
  rewrite (generate_body_exact uml_directory m classes found emitted written deferred
             Hdrop Hsearch Hres).
  cbn [snd Locals.f Locals.cls_written Locals.classes_deferred]. fold trees.
  intros Hcls.
  assert (cls ∈ found) as Hfound by exact (sublist_subseteq _ _ Hd _ Hcls).
  split.
  - intros (cls_name & base_classes & Hin).
    apply elem_of_app in Hin as [Hin | Hin].
    + exfalso.
      apply elem_of_app in Hin as [[[=] | []%elem_of_nil]%elem_of_cons | Hin].
      apply elem_of_app in Hin as [Hin | Hin];
        [by apply list_elem_of_fmap in Hin as (? & [=] & _)|].
      apply list_elem_of_In, in_flat_map in Hin as (c & Hc & Hin).
      apply list_elem_of_In in Hc, Hin.
      unfold block in Hin.
      rewrite (Hget c (sublist_subseteq _ _ He _ Hc)) in Hin.
      unfold class_block in Hin. apply elem_of_cons in Hin as [[= -> _ _] | Hbody].
      * by apply (Hdisjoint Hnd c).
      * pose proof (class_body_lines m c) as Hlines.
        rewrite Forall_forall in Hlines. by apply Hlines in Hbody.
    + apply list_elem_of_In, in_flat_map in Hin as (c & Hc & Hin).
      apply list_elem_of_In in Hin.
      apply attempt_signature in Hin as (-> & _ & parents & Hparents & Hsat & _).
      rewrite (Hget c Hfound) in Hparents. by injection Hparents as <-.
  - intros Hsat.
    exists (name m cls), (omap (name m) (parent_list m cls)).
    apply elem_of_app. right.
    apply list_elem_of_In, in_flat_map. exists cls. split; [by apply list_elem_of_In|].
    apply list_elem_of_In. unfold attempt. rewrite (Hget cls Hfound).
    rewrite decide_True by done. unfold class_block. left.
Qed.

Lemma deferred_class_defined_iff_witness :
  (∃ cls_name base_classes,
     Signature 3%positive cls_name base_classes ∈ output [] diamond_model) ↔
  satisfied diamond_model
            (Locals.cls_written (generate_body [] diamond_model Locals.init).2)
            (parent_list diamond_model 3%positive).
Proof.
  apply (deferred_class_defined_iff [] diamond_model 3%positive).
  - intros cls Hcls.
    repeat (apply elem_of_cons in Hcls as [-> | Hcls]); try reflexivity.
    by apply elem_of_nil in Hcls.
  - apply (bool_decide_unpack _). vm_compute. exact I.
Defined.

(** ** Unreferenced classes and the import loop *)





